(** * Dodgeball arena: match and combat simulation

    A shallow embedding of the match/combat core of the dodgeball server:
    - [GameConfig]               (src/GameConfig.ts)
    - [GameModeManager]          (src/GameModeManager.ts, first class)
    - [GameManager]              (src/GameModeManager.ts, second class)
    - [DodgeballPlayerEntity]    (the player combat entity)
    - [DodgeballEntity]          (src/DodgeballEntity.ts, the projectile)
    - [PowerUpEntity]            (the power-up pickup)

    Conventions of the embedding.
    - The game manager is a singleton that owns every player entity through
      its [_playerEntities] map; entities are therefore addressed by player
      id and their fields live in that map.  Methods of an entity take the
      id and the manager state and return the new manager state.
    - JS [Map]s whose iteration order is irrelevant for the code that is
      modelled (only counts and lookups are taken) are [gmap string _].
    - Calls into the host (chat, achievements, particles) are recorded in a
      log carried by the manager state, newest entry first.
    - [setTimeout] timers are deadlines on a logical clock in milliseconds;
      a timer fires when the clock reaches its deadline.
    - [health], [shield], damage and times are integers; the damage
      multiplier of a ball, a JS double, is an exact rational. *)

From Stdlib Require Import ZArith QArith Qround Qpower Lia Lqa Bool.
From stdpp Require Import gmap strings list fin_maps.

Local Open Scope Z_scope.

(** ** Enumerations of GameConfig.ts *)

Inductive GameState := WAITING | STARTING | PLAYING | ENDING.
Inductive Team := RED | BLUE.
Inductive PowerUpType :=
  SPEED_BOOST | INVISIBILITY | MULTI_THROW | SHIELD
| TELEPORT | FREEZE | MAGNET | TIME_SLOW.

#[global] Instance GameState_eq_dec : EqDecision GameState.
Proof. solve_decision. Defined.
#[global] Instance Team_eq_dec : EqDecision Team.
Proof. solve_decision. Defined.
#[global] Instance PowerUpType_eq_dec : EqDecision PowerUpType.
Proof. solve_decision. Defined.

(** ** Constants of GameConfig.ts *)

Module GameConfig.
Definition MIN_PLAYERS_TO_START : nat := 2.
Definition COUNTDOWN_SECONDS : nat := 5.
Definition ROUND_TIME_MS : Z := 4 * 60 * 1000.
Definition ROUND_END_DELAY_MS : Z := 3000.
Definition DODGEBALL_COUNT : nat := 8.
Definition DODGEBALL_DAMAGE : Z := 100.
Definition DODGEBALL_CATCH_WINDOW_MS : Z := 250.
Definition DODGEBALL_MAX_BOUNCES : nat := 3.
Definition DODGEBALL_LIFETIME_MS : Z := 15000.
Definition PLAYER_HEALTH : Z := 100.
Definition PLAYER_SHIELD : Z := 50.
(** ADVANCED.BOUNCE_DAMAGE_MULTIPLIER = 0.8 *)
Definition BOUNCE_DAMAGE_MULTIPLIER : Q := 4 # 5.
End GameConfig.

(** ** Host calls that the core issues, kept as a log *)

Inductive HostEvent :=
| MsgWelcome (to : string)
| MsgYourTeam (to : string) (t : Team)
| MsgJoined (who : string) (t : Team)
| MsgLeft (who : string)
| MsgShieldBroke (to : string)
| MsgTookDamage (to : string) (damage : Z)
| MsgEliminated (who : string) (t : option Team)
| MsgEliminatedBy (thrower victim : string)
| MsgCaught (catcher thrower : string)
| MsgRoundStart
| MsgTeamWins (t : Team)
| MsgDraw
| FxShieldBreak (who : string)
| AchRecordDeath (who : string)
| AchRecordElimination (who : string)
| AchEndMatch (who : string)
| UiUpdateAll.

(** ** State of a player combat entity (fields of DodgeballPlayerEntity) *)

Record PlayerEntity := mkPlayerEntity {
  isAlive : bool;
  team : option Team;
  health : Z;
  shield : Z;
  activePowerUps : list PowerUpType;   (* keys of _activePowerUps *)
  deaths : nat;                        (* _stats.deaths *)
  impulses : list Z;                   (* magnitudes passed to applyImpulse *)
  inWorld : bool                       (* this.world is defined *)
}.

(** ** State of the game manager singleton *)

Record GameManager := mkGameManager {
  world : bool;                                  (* this.world is defined *)
  gameState : GameState;
  playerEntities : gmap string PlayerEntity;
  playerTeams : gmap string Team;
  alivePlayers : gmap string bool;
  roundTimer : bool;                             (* round timer pending *)
  hostLog : list HostEvent
}.

Definition emit (evs : list HostEvent) (g : GameManager) : GameManager :=
  mkGameManager (world g) (gameState g) (playerEntities g) (playerTeams g)
                (alivePlayers g) (roundTimer g) (evs ++ hostLog g).

Definition setGameState (s : GameState) (g : GameManager) : GameManager :=
  mkGameManager (world g) s (playerEntities g) (playerTeams g)
                (alivePlayers g) (roundTimer g) (hostLog g).

Definition setRoundTimer (b : bool) (g : GameManager) : GameManager :=
  mkGameManager (world g) (gameState g) (playerEntities g) (playerTeams g)
                (alivePlayers g) b (hostLog g).

Definition setPlayerEntities (m : gmap string PlayerEntity) (g : GameManager)
  : GameManager :=
  mkGameManager (world g) (gameState g) m (playerTeams g)
                (alivePlayers g) (roundTimer g) (hostLog g).

Definition setPlayerTeams (m : gmap string Team) (g : GameManager)
  : GameManager :=
  mkGameManager (world g) (gameState g) (playerEntities g) m
                (alivePlayers g) (roundTimer g) (hostLog g).

Definition setAlivePlayers (m : gmap string bool) (g : GameManager)
  : GameManager :=
  mkGameManager (world g) (gameState g) (playerEntities g) (playerTeams g)
                m (roundTimer g) (hostLog g).

Definition putEntity (id : string) (e : PlayerEntity) (g : GameManager)
  : GameManager :=
  setPlayerEntities (<[id := e]> (playerEntities g)) g.

(** The manager as created by [new GameManager()] and after [setupGame]. *)
Definition newGameManager : GameManager :=
  mkGameManager false WAITING ∅ ∅ ∅ false [].

Definition setupGame (g : GameManager) : GameManager :=
  mkGameManager true (gameState g) (playerEntities g) (playerTeams g)
                (alivePlayers g) (roundTimer g) (hostLog g).

(** ** GameModeManager: team-elimination victory *)

Module GameModeManager.

(** number of entries of [alivePlayers] that are alive and on team [t] *)
Definition aliveOn (t : Team) (alivePlayers : gmap string bool)
           (playerTeams : gmap string Team) : nat :=
  size (filter (λ kv : string * bool,
                  kv.2 = true ∧ playerTeams !! kv.1 = Some t) alivePlayers).

Definition checkTeamEliminationVictory (alivePlayers : gmap string bool)
           (playerTeams : gmap string Team) : option Team :=
  let aliveRed := aliveOn RED alivePlayers playerTeams in
  let aliveBlue := aliveOn BLUE alivePlayers playerTeams in
  if bool_decide (aliveRed = 0%nat) && bool_decide (0 < aliveBlue)%nat
  then Some BLUE
  else if bool_decide (aliveBlue = 0%nat) && bool_decide (0 < aliveRed)%nat
  then Some RED
  else None.

End GameModeManager.

(** ** DodgeballPlayerEntity: construction and spawn *)

(** field initialisers of the class *)
Definition newPlayerEntity : PlayerEntity :=
  mkPlayerEntity true None GameConfig.PLAYER_HEALTH GameConfig.PLAYER_SHIELD
                 [] 0 [] false.

Definition setTeam (t : option Team) (e : PlayerEntity) : PlayerEntity :=
  mkPlayerEntity (isAlive e) t (health e) (shield e) (activePowerUps e)
                 (deaths e) (impulses e) (inWorld e).

(** [spawn]: resets the combat state and clears the active power-ups *)
Definition spawnPlayer (e : PlayerEntity) : PlayerEntity :=
  mkPlayerEntity true (team e) GameConfig.PLAYER_HEALTH
                 GameConfig.PLAYER_SHIELD [] (deaths e) (impulses e) true.

(** ** GameManager: roster, round life cycle, elimination *)

Definition teamCount (t : Team) (teams : gmap string Team) : nat :=
  size (filter (λ kv : string * Team, kv.2 = t) teams).

Definition _assignTeam (g : GameManager) : Team :=
  let redCount := teamCount RED (playerTeams g) in
  let blueCount := teamCount BLUE (playerTeams g) in
  if bool_decide (redCount ≤ blueCount)%nat then RED else BLUE.

(** alive members of a team: the entries of [_playerTeams] on team [t]
    whose [_alivePlayers] entry is truthy; [_checkForRoundEnd] computes the
    same count inline *)
Definition _getTeamAliveCount (t : Team) (g : GameManager) : nat :=
  size (filter (λ kv : string * Team,
                  kv.2 = t ∧ alivePlayers g !! kv.1 = Some true)
               (playerTeams g)).

Definition _startCountdown (g : GameManager) : GameManager :=
  if negb (world g) then g else setGameState STARTING g.

(** The host's list of connected players of the world is taken to be the
    key set of [_playerEntities]: join and leave are the host's JOINED_WORLD
    and LEFT_WORLD notifications. *)
Definition _checkForGameStart (g : GameManager) : GameManager :=
  if negb (world g) || negb (bool_decide (gameState g = WAITING)) then g
  else if bool_decide
            (GameConfig.MIN_PLAYERS_TO_START ≤ size (playerEntities g))%nat
       then _startCountdown g
       else g.

(** [_endRound]; the delayed [_resetGame] it schedules is [_resetGame]. *)
Definition _endRound (winner : option Team) (g : GameManager) : GameManager :=
  if negb (world g) then g
  else
    let g1 := setRoundTimer false (setGameState ENDING g) in
    match winner with
    | Some t => emit [MsgTeamWins t] g1
    | None => emit [MsgDraw] g1
    end.

Definition _checkForRoundEnd (g : GameManager) : GameManager :=
  if negb (world g) || negb (bool_decide (gameState g = PLAYING)) then g
  else
    let aliveRed := _getTeamAliveCount RED g in
    let aliveBlue := _getTeamAliveCount BLUE g in
    if bool_decide (aliveRed = 0%nat) then _endRound (Some BLUE) g
    else if bool_decide (aliveBlue = 0%nat) then _endRound (Some RED) g
    else g.

(** [_startRound], run by the countdown timer when it reaches zero; the
    dodgeballs it spawns are separate entities (see [DodgeballEntity]). *)
Definition _startRound (g : GameManager) : GameManager :=
  if negb (world g) then g
  else
    let g1 := setGameState PLAYING g in
    let g2 := setAlivePlayers
                (((λ _, true) <$> playerTeams g1) ∪ alivePlayers g1) g1 in
    emit [UiUpdateAll; MsgRoundStart] (setRoundTimer true g2).

(** the round timer's callback *)
Definition roundTimeout (g : GameManager) : GameManager :=
  if roundTimer g then _endRound None (setRoundTimer false g) else g.

Definition _resetGame (g : GameManager) : GameManager :=
  _checkForGameStart (setAlivePlayers ∅ (setGameState WAITING g)).

(** [handlePlayerJoin]; the host calls inside its [try] are taken not to
    throw *)
Definition handlePlayerJoin (id : string) (g : GameManager) : GameManager :=
  if negb (world g) then g
  else
    let g1 := putEntity id newPlayerEntity g in
    let team := _assignTeam g1 in
    let g2 := setPlayerTeams (<[id := team]> (playerTeams g1)) g1 in
    let g3 := setAlivePlayers (<[id := true]> (alivePlayers g2)) g2 in
    let g4 := putEntity id (spawnPlayer (setTeam (Some team) newPlayerEntity))
                        g3 in
    _checkForGameStart
      (emit [MsgJoined id team; MsgYourTeam id team; MsgWelcome id] g4).

Definition handlePlayerLeave (id : string) (g : GameManager) : GameManager :=
  if negb (world g) then g
  else
    let g1 := setPlayerEntities (delete id (playerEntities g)) g in
    let g2 := setPlayerTeams (delete id (playerTeams g1)) g1 in
    let g3 := setAlivePlayers (delete id (alivePlayers g2)) g2 in
    let g4 := emit [MsgLeft id; AchEndMatch id] g3 in
    if bool_decide (gameState g4 = PLAYING) then _checkForRoundEnd g4 else g4.

Definition eliminatePlayer (id : string) (g : GameManager) : GameManager :=
  match playerEntities g !! id with
  | None => g
  | Some playerEntity =>
      if 0 <? shield playerEntity then g
      else
        let g1 := setAlivePlayers (<[id := false]> (alivePlayers g)) g in
        if negb (world g1) then g1
        else
          _checkForRoundEnd
            (emit [UiUpdateAll;
                   MsgEliminated id (playerTeams g1 !! id);
                   AchRecordElimination id] g1)
  end.

(** the per-tick part of [update] that re-evaluates the state *)
Definition updateChecks (g : GameManager) : GameManager :=
  match gameState g with
  | WAITING => _checkForGameStart g
  | PLAYING => _checkForRoundEnd g
  | _ => g
  end.

(** ** DodgeballPlayerEntity: eliminate, takeDamage, respawn *)

Module DodgeballPlayerEntity.

Definition breakShield (e : PlayerEntity) : PlayerEntity :=
  mkPlayerEntity (isAlive e) (team e) (health e) 0
                 (filter (λ t, t ≠ SHIELD) (activePowerUps e))
                 (deaths e) (impulses e) (inWorld e).

Definition die (e : PlayerEntity) : PlayerEntity :=
  mkPlayerEntity false (team e) (health e) (shield e) (activePowerUps e)
                 (S (deaths e)) (impulses e) (inWorld e).

Definition eliminate (id : string) (g : GameManager) : GameManager :=
  match playerEntities g !! id with
  | None => g
  | Some e =>
      if negb (isAlive e) then g
      else if 0 <? shield e then
        let g1 := putEntity id (breakShield e) g in
        if inWorld e then emit [MsgShieldBroke id; FxShieldBreak id] g1
        else g1
      else
        let g1 := emit [AchRecordDeath id] (putEntity id (die e) g) in
        eliminatePlayer id g1
  end.

Definition setHealth (h : Z) (e : PlayerEntity) : PlayerEntity :=
  mkPlayerEntity (isAlive e) (team e) h (shield e) (activePowerUps e)
                 (deaths e) (impulses e) (inWorld e).

Definition takeDamage (id : string) (damage : Z) (g : GameManager)
  : GameManager :=
  match playerEntities g !! id with
  | None => g
  | Some e =>
      let g1 := putEntity id (setHealth (health e - damage) e) g in
      if health e - damage <=? 0 then eliminate id g1 else g1
  end.

Definition respawn (id : string) (g : GameManager) : GameManager :=
  match playerEntities g !! id with
  | None => g
  | Some e =>
      putEntity id
        (mkPlayerEntity true (team e) GameConfig.PLAYER_HEALTH
           GameConfig.PLAYER_SHIELD [] (deaths e) (impulses e) (inWorld e))
        g
  end.

Definition applyImpulse (id : string) (f : Z) (g : GameManager)
  : GameManager :=
  match playerEntities g !! id with
  | None => g
  | Some e =>
      putEntity id
        (mkPlayerEntity (isAlive e) (team e) (health e) (shield e)
           (activePowerUps e) (deaths e) (f :: impulses e) (inWorld e))
        g
  end.

End DodgeballPlayerEntity.

(** ** DodgeballEntity: the projectile *)

(** what a collision callback reports as the other entity *)
Inductive Entity := PlayerEnt (id : string) | OtherEnt.

Record Dodgeball := mkDodgeball {
  ballWorld : bool;             (* this.world is defined (isSpawned) *)
  thrower : option string;      (* _thrower, a player entity *)
  bounceCount : nat;
  canCatch : bool;
  catchWindow : option Z;       (* deadline of the pending catch timer *)
  lifetime : Z;
  maxLifetime : Z;
  powerLevel : Z;
  damageMultiplier : Q;
  despawnTimer : option Z       (* deadline of the auto-despawn timer *)
}.

(** A ball, the manager it acts on and the logical clock. *)
Record Sim := mkSim {
  clock : Z;
  ball : Dodgeball;
  game : GameManager
}.

Module DodgeballEntity.

(** [new DodgeballEntity(powerLevel)];
    _maxLifetime = LIFETIME * (1 + powerLevel * 0.5) *)
Definition create (powerLevel : Z) : Dodgeball :=
  mkDodgeball false None 0 true None 0
    (GameConfig.DODGEBALL_LIFETIME_MS
     + GameConfig.DODGEBALL_LIFETIME_MS / 2 * powerLevel)
    powerLevel (inject_Z powerLevel) None.

Definition spawn (now : Z) (b : Dodgeball) : Dodgeball :=
  mkDodgeball true (thrower b) (bounceCount b) (canCatch b) (catchWindow b)
    0 (maxLifetime b) (powerLevel b) (damageMultiplier b)
    (Some (now + maxLifetime b)).

Definition despawn (b : Dodgeball) : Dodgeball :=
  mkDodgeball false (thrower b) (bounceCount b) (canCatch b) None
    (lifetime b) (maxLifetime b) (powerLevel b) (damageMultiplier b)
    (despawnTimer b).

Definition setBall (b : Dodgeball) (s : Sim) : Sim :=
  mkSim (clock s) b (game s).

(** [throw]: records the thrower, resets bounce count, catch flag and
    lifetime, and (re)starts the catch window *)
Definition throw (who : string) (s : Sim) : Sim :=
  let b := ball s in
  if negb (ballWorld b) then s
  else
    setBall
      (mkDodgeball true (Some who) 0 true
         (Some (clock s + GameConfig.DODGEBALL_CATCH_WINDOW_MS))
         0 (maxLifetime b) (powerLevel b) (damageMultiplier b)
         (despawnTimer b)) s.

Definition canBeCaught (b : Dodgeball) : bool :=
  canCatch b && bool_decide (bounceCount b = 0%nat).

Definition catch (catcher : string) (s : Sim) : Sim :=
  let b := ball s in
  if negb (canBeCaught b) || negb (ballWorld b) then s
  else
    let g :=
      match thrower b with
      | Some t =>
          match playerEntities (game s) !! t with
          | Some e =>
              if bool_decide (t ≠ catcher) && isAlive e
              then emit [MsgCaught catcher t]
                        (DodgeballPlayerEntity.eliminate t (game s))
              else game s
          | None => game s
          end
      | None => game s
      end in
    mkSim (clock s) (despawn b) g.

Definition _onBlockCollision (b : Dodgeball) : Dodgeball :=
  let n := S (bounceCount b) in
  let maxed := bool_decide (GameConfig.DODGEBALL_MAX_BOUNCES ≤ n)%nat in
  mkDodgeball (ballWorld b) (thrower b) n
    (if maxed then false else canCatch b)
    (if maxed then None else catchWindow b)
    (lifetime b) (maxLifetime b) (powerLevel b)
    (damageMultiplier b * GameConfig.BOUNCE_DAMAGE_MULTIPLIER)%Q
    (despawnTimer b).

(** Math.floor(baseDamage * _damageMultiplier * _powerLevel) *)
Definition finalDamage (b : Dodgeball) : Z :=
  Qfloor (inject_Z GameConfig.DODGEBALL_DAMAGE * damageMultiplier b
          * inject_Z (powerLevel b))%Q.

(** returns the manager and whether the target was eliminated *)
Definition attemptElimination (b : Dodgeball) (id : string) (damage : Z)
           (g : GameManager) : GameManager * bool :=
  match thrower b with
  | Some t =>
      if negb (ballWorld b) then (g, false)
      else
        match playerEntities g !! id with
        | Some player =>
            if 0 <? shield player then (g, false)
            else (emit [MsgEliminatedBy t id]
                       (DodgeballPlayerEntity.eliminate id g), true)
        | None => (g, false)
        end
  | None => (g, false)
  end.

Definition applyDamage (b : Dodgeball) (id : string) (damage : Z)
           (g : GameManager) : GameManager :=
  let g1 := DodgeballPlayerEntity.takeDamage id damage g in
  if ballWorld b then emit [MsgTookDamage id damage] g1 else g1.

(** knockbackForce = 5 * powerLevel; the direction is host geometry *)
Definition applyHitKnockback (b : Dodgeball) (id : string)
           (g : GameManager) : GameManager :=
  DodgeballPlayerEntity.applyImpulse id (5 * powerLevel b) g.

Definition _handlePlayerHit (id : string) (s : Sim) : Sim :=
  let b := ball s in
  if negb (ballWorld b) || negb (bool_decide (is_Some (thrower b))) then s
  else
    let damage := finalDamage b in
    if bool_decide (GameConfig.DODGEBALL_MAX_BOUNCES ≤ bounceCount b)%nat
    then mkSim (clock s) (despawn b) (applyHitKnockback b id (game s))
    else if bool_decide (bounceCount b = 0%nat)
    then mkSim (clock s) (despawn b)
               (attemptElimination b id damage (game s)).1
    else mkSim (clock s) (despawn b) (applyDamage b id damage (game s)).

Definition _onEntityCollision (hitEntity : Entity) (s : Sim) : Sim :=
  match hitEntity with
  | OtherEnt => s
  | PlayerEnt id =>
      match playerEntities (game s) !! id with
      | None => s
      | Some player =>
          if bool_decide (thrower (ball s) = Some id)
             && bool_decide (bounceCount (ball s) = 0%nat) then s
          else if negb (isAlive player) then s
          else _handlePlayerHit id s
      end
  end.

(** [_onTick]: lifetime bookkeeping (trail, magnet and spin are physics) *)
Definition _onTick (deltaTimeMs : Z) (b : Dodgeball) : Dodgeball :=
  if negb (ballWorld b) then b
  else
    let b1 := mkDodgeball (ballWorld b) (thrower b) (bounceCount b)
                (canCatch b) (catchWindow b) (lifetime b + deltaTimeMs)
                (maxLifetime b) (powerLevel b) (damageMultiplier b)
                (despawnTimer b) in
    if maxLifetime b1 <=? lifetime b1 then despawn b1 else b1.

(** callback of the catch-window timer, when due at time [now] *)
Definition fireCatchWindow (now : Z) (b : Dodgeball) : Dodgeball :=
  match catchWindow b with
  | Some due =>
      if due <=? now
      then mkDodgeball (ballWorld b) (thrower b) (bounceCount b) false None
             (lifetime b) (maxLifetime b) (powerLevel b)
             (damageMultiplier b) (despawnTimer b)
      else b
  | None => b
  end.

(** callback of the auto-despawn timer armed in [spawn] *)
Definition fireDespawnTimer (now : Z) (b : Dodgeball) : Dodgeball :=
  match despawnTimer b with
  | Some due =>
      if due <=? now
      then
        let b1 := mkDodgeball (ballWorld b) (thrower b) (bounceCount b)
                    (canCatch b) (catchWindow b) (lifetime b)
                    (maxLifetime b) (powerLevel b) (damageMultiplier b)
                    None in
        if ballWorld b1 then despawn b1 else b1
      else b
  | None => b
  end.

(** the clock moves on by [dt]; due timers fire in deadline order *)
Definition advance (dt : Z) (s : Sim) : Sim :=
  let now := clock s + dt in
  let b := ball s in
  let despawnFirst :=
    match catchWindow b, despawnTimer b with
    | Some c, Some d => d <? c
    | _, _ => false
    end in
  mkSim now
    (if despawnFirst
     then fireCatchWindow now (fireDespawnTimer now b)
     else fireDespawnTimer now (fireCatchWindow now b))
    (game s).

(** What can happen to a ball after it was spawned and, possibly, thrown:
    the host's collision and tick callbacks, the passing of time, and catch
    attempts of players.  [throw] is not among them: a player creates and
    spawns a new ball for every throw, and nothing throws a ball again. *)
Inductive BallEvent :=
| EvBlockCollision
| EvEntityCollision (hitEntity : Entity)
| EvTick (deltaTimeMs : N)
| EvAdvance (dt : N)
| EvCatch (catcher : string).

Definition step (ev : BallEvent) (s : Sim) : Sim :=
  match ev with
  | EvBlockCollision => setBall (_onBlockCollision (ball s)) s
  | EvEntityCollision h => _onEntityCollision h s
  | EvTick dt => setBall (_onTick (Z.of_N dt) (ball s)) s
  | EvAdvance dt => advance (Z.of_N dt) s
  | EvCatch c => catch c s
  end.

Definition run (evs : list BallEvent) (s : Sim) : Sim :=
  foldl (λ s ev, step ev s) s evs.

End DodgeballEntity.

(** ** PowerUpEntity: the pickup *)

Record PowerUp := mkPowerUp {
  powerUpType : PowerUpType;
  collected : bool;             (* _collected *)
  puWorld : bool;               (* this.world is defined (isSpawned) *)
  despawnArmed : bool           (* _despawnTimer is pending *)
}.

(** A power-up together with what it has done to its surroundings.
    [collect] is an async method: after the effect has been dispatched it
    waits at [await applyPowerUpEffect(player)], and the rest of its body
    runs later; [suspended] holds those waiting calls, oldest first. *)
Record PowerUpSim := mkPowerUpSim {
  powerUp : PowerUp;
  suspended : list string;
  applied : list (string * PowerUpType);  (* applyPowerUpEffect dispatches *)
  notified : list string;                 (* "Collected ..." messages *)
  despawns : nat                          (* despawns handed to the host *)
}.

Module PowerUpEntity.

(** constructor: arms the 30 s auto-despawn timer *)
Definition create (ty : PowerUpType) : PowerUpSim :=
  mkPowerUpSim (mkPowerUp ty false false true) [] [] [] 0.

(** [spawn]: enters the world and arms the collision listener *)
Definition spawn (s : PowerUpSim) : PowerUpSim :=
  let p := powerUp s in
  mkPowerUpSim (mkPowerUp (powerUpType p) (collected p) true
                          (despawnArmed p))
               (suspended s) (applied s) (notified s) (despawns s).

(** [despawn]: clears the timer, then the host removes the entity *)
Definition despawn (s : PowerUpSim) : PowerUpSim :=
  let p := powerUp s in
  mkPowerUpSim (mkPowerUp (powerUpType p) (collected p) false false)
               (suspended s) (applied s) (notified s) (S (despawns s)).

(** [collect] up to its [await] *)
Definition collect (player : string) (s : PowerUpSim) : PowerUpSim :=
  let p := powerUp s in
  if collected p || negb (puWorld p) then s
  else
    mkPowerUpSim (mkPowerUp (powerUpType p) true (puWorld p)
                            (despawnArmed p))
                 (suspended s ++ [player])
                 ((player, powerUpType p) :: applied s)
                 (notified s) (despawns s).

(** the rest of the oldest suspended [collect]; reading
    [this.world.chatManager] of an entity that has left the world throws,
    which ends that call *)
Definition resume (s : PowerUpSim) : PowerUpSim :=
  match suspended s with
  | [] => s
  | player :: rest =>
      let s1 := mkPowerUpSim (powerUp s) rest (applied s) (notified s)
                             (despawns s) in
      if puWorld (powerUp s1)
      then despawn (mkPowerUpSim (powerUp s1) rest (applied s1)
                                 (player :: notified s1) (despawns s1))
      else s1
  end.

(** the listener registered in [spawn] *)
Definition onEntityCollision (otherEntity : Entity) (started : bool)
           (s : PowerUpSim) : PowerUpSim :=
  match otherEntity with
  | PlayerEnt player =>
      if started && negb (collected (powerUp s)) then collect player s
      else s
  | OtherEnt => s
  end.

(** callback of the auto-despawn timer *)
Definition onDespawnTimer (s : PowerUpSim) : PowerUpSim :=
  let p := powerUp s in
  if despawnArmed p
  then
    let s1 := mkPowerUpSim (mkPowerUp (powerUpType p) (collected p)
                                      (puWorld p) false)
                           (suspended s) (applied s) (notified s)
                           (despawns s) in
    if puWorld p then despawn s1 else s1
  else s.

Inductive PowerUpEvent :=
| PuCollision (otherEntity : Entity) (started : bool)
| PuResume
| PuTimer.

Definition step (ev : PowerUpEvent) (s : PowerUpSim) : PowerUpSim :=
  match ev with
  | PuCollision o st => onEntityCollision o st s
  | PuResume => resume s
  | PuTimer => onDespawnTimer s
  end.

Definition run (evs : list PowerUpEvent) (s : PowerUpSim) : PowerUpSim :=
  foldl (λ s ev, step ev s) s evs.

End PowerUpEntity.

(** * Further parts of the code *)

(** ** GameManager: statistics, countdown, spawn positions, power-up cap *)

(** [getGameStats], for the fields that are functions of the modelled
    state (mode, round number, power-up count and game time are fields
    the model does not carry) *)
Record GameStats := mkGameStats {
  statGameState : GameState;
  totalPlayers : nat;
  alivePlayersCount : nat;
  redPlayers : nat;
  bluePlayers : nat;
  redAlive : nat;
  blueAlive : nat
}.

Definition getGameStats (g : GameManager) : GameStats :=
  mkGameStats (gameState g)
    (size (playerTeams g))
    (size (filter (λ kv : string * bool, kv.2 = true) (alivePlayers g)))
    (teamCount RED (playerTeams g))
    (teamCount BLUE (playerTeams g))
    (_getTeamAliveCount RED g)
    (_getTeamAliveCount BLUE g).

(** The interval that [_startCountdown] creates: its local [countdown]
    variable, whether the interval is still set, and the numbers it has
    broadcast ("Game starting in n..."), newest first. *)
Record Countdown := mkCountdown {
  cdGame : GameManager;
  cdRemaining : nat;
  cdRunning : bool;
  cdBroadcasts : list nat
}.

(** [_startCountdown] together with the interval it sets, counting from
    [seconds] (GameConfig.COUNTDOWN_SECONDS in the code) *)
Definition _startCountdownFrom (seconds : nat) (g : GameManager) : Countdown :=
  if negb (world g) then mkCountdown g seconds false []
  else mkCountdown (setGameState STARTING g) seconds true [].

(** one run of the interval's callback *)
Definition countdownTick (c : Countdown) : Countdown :=
  if negb (cdRunning c) then c
  else if negb (world (cdGame c)) then c
  else
    match cdRemaining c with
    | S n => mkCountdown (cdGame c) n true (S n :: cdBroadcasts c)
    | O => mkCountdown (_startRound (cdGame c)) 0 false (cdBroadcasts c)
    end.

(** [_spawnDodgeballs]: the spawn positions (x, y, z) of the round's balls,
    3 apart along the line z = FIELD_CENTER_Z, for [count] balls
    (GameConfig.DODGEBALL_COUNT in the code) *)
Definition dodgeballSpawnX (count : nat) (i : nat) : Q :=
  let spacing := 3%Q in
  let startX := (- (inject_Z (Z.of_nat count) - 1) * spacing / 2)%Q in
  (startX + inject_Z (Z.of_nat i) * spacing)%Q.

Definition dodgeballSpawnPositions (count : nat) : list (Q * Q * Q) :=
  map (λ i, (dodgeballSpawnX count i, 2%Q, 0%Q)) (seq 0 count).

(** Math.round(v * 10) / 10 *)
Definition roundToTenth (v : Q) : Q :=
  (inject_Z (Qfloor (v * 10 + (1 # 2))) / 10)%Q.

(** [_getSafeSpawnPosition]; [rx] and [rz] are the two results of
    Math.random().  Field: x in [-35, 35], z in [-40, 40], safe radius 5. *)
Definition _getSafeSpawnPosition (t : Team) (rx rz : Q) : Q * Q * Q :=
  let fieldMinX := (-35)%Q in
  let fieldMaxX := 35%Q in
  let fieldMinZ := (-40)%Q in
  let fieldMaxZ := 40%Q in
  let safe := 5%Q in
  let minX := match t with RED => fieldMinX + safe | BLUE => 0 + safe end%Q in
  let maxX := match t with RED => 0 - safe | BLUE => fieldMaxX - safe end%Q in
  let minZ := (fieldMinZ + safe)%Q in
  let maxZ := (fieldMaxZ - safe)%Q in
  let x := (rx * (maxX - minX) + minX)%Q in
  let z := (rz * (maxZ - minZ) + minZ)%Q in
  (roundToTenth x, 2%Q, roundToTenth z).

(** the [_powerUps] set of the manager: [spawnRandomPowerUp] with the type
    that Math.random selected, and the sweep of [_updatePowerUps] *)
Definition POWER_UP_MAX_ACTIVE : nat := 5.

Definition spawnRandomPowerUp (worldAttached : bool) (ty : PowerUpType)
           (powerUps : list PowerUp) : list PowerUp :=
  if negb worldAttached || bool_decide (POWER_UP_MAX_ACTIVE ≤ length powerUps)%nat
  then powerUps
  else powerUps ++ [powerUp (PowerUpEntity.spawn (PowerUpEntity.create ty))].

Definition _updatePowerUps (powerUps : list PowerUp) : list PowerUp :=
  filter (λ p, puWorld p = true) powerUps.

(** ** GameModeManager: mode data and the mode-specific victory checks *)

Inductive GameMode := CLASSIC | SURVIVAL | TIME_ATTACK | POWER_UP_MADNESS | CHAOS.

(** The mode, its start time and the entries of [_modeSpecificData] that
    the victory checks and [updateChaos] read; an entry that is not set is
    [None].  [scores] lists the map in insertion order. *)
Record ModeManager := mkModeManager {
  currentMode : GameMode;
  modeStartTime : Z;
  currentRound : option nat;
  maxRounds : option nat;
  timeLimit : option Z;
  scores : option (list (string * Z));
  chaosLevel : option Z;
  chaosBroadcasts : list Z          (* "Chaos Level n!", newest first *)
}.

Module GameModes.

(** JS [x || d] on a number that may be undefined *)
Definition orNat (x : option nat) (d : nat) : nat :=
  match x with Some (S n) => S n | _ => d end.

Definition orZ (x : option Z) (d : Z) : Z :=
  match x with
  | Some z => if bool_decide (z = 0) then d else z
  | None => d
  end.

(** [initializeMode] at time [now]: clears the data and sets the entries of
    the mode (Survival's maxRounds is GAME_MODES.survival.maxRounds = 5,
    Time Attack's limit GAME_MODES.time_attack.timeLimit = 120000) *)
Definition initializeMode (mode : GameMode) (now : Z) (m : ModeManager)
  : ModeManager :=
  match mode with
  | CLASSIC =>
      mkModeManager mode now None (Some 3%nat) None None None
                    (chaosBroadcasts m)
  | SURVIVAL =>
      mkModeManager mode now (Some 1%nat) (Some 5%nat) None None None
                    (chaosBroadcasts m)
  | TIME_ATTACK =>
      mkModeManager mode now None None (Some 120000) (Some []) None
                    (chaosBroadcasts m)
  | POWER_UP_MADNESS =>
      mkModeManager mode now None None None None None (chaosBroadcasts m)
  | CHAOS =>
      mkModeManager mode now None None None None (Some 1)
                    (chaosBroadcasts m)
  end.

Definition setCurrentRound (r : nat) (m : ModeManager) : ModeManager :=
  mkModeManager (currentMode m) (modeStartTime m) (Some r) (maxRounds m)
                (timeLimit m) (scores m) (chaosLevel m) (chaosBroadcasts m).

Definition checkSurvivalVictory (alivePlayers : gmap string bool)
           (playerTeams : gmap string Team) (m : ModeManager)
  : option Team * ModeManager :=
  let winner :=
    GameModeManager.checkTeamEliminationVictory alivePlayers playerTeams in
  match winner with
  | Some _ =>
      let currentRound := orNat (currentRound m) 1 in
      let maxRounds := orNat (maxRounds m) 5 in
      if bool_decide (currentRound < maxRounds)%nat
      then (None, setCurrentRound (currentRound + 1) m)
      else (winner, m)
  | None => (winner, m)
  end.

(** the loop over the scores: RED as soon as a score exceeds the maximum
    seen so far, which starts at 0 *)
Definition scanScores (entries : list (string * Z)) : Z * option Team :=
  foldl (λ (acc : Z * option Team) (entry : string * Z),
           if acc.1 <? entry.2 then (entry.2, Some RED) else acc)
        (0, None) entries.

Definition checkTimeAttackVictory (now : Z) (m : ModeManager) : option Team :=
  let timeLimit := orZ (timeLimit m) 120000 in
  let elapsed := now - modeStartTime m in
  if timeLimit <=? elapsed
  then (scanScores (default [] (scores m))).2
  else None.

Definition checkVictoryCondition (now : Z) (alivePlayers : gmap string bool)
           (playerTeams : gmap string Team) (m : ModeManager)
  : option Team * ModeManager :=
  match currentMode m with
  | CLASSIC | POWER_UP_MADNESS | CHAOS =>
      (GameModeManager.checkTeamEliminationVictory alivePlayers playerTeams,
       m)
  | SURVIVAL => checkSurvivalVictory alivePlayers playerTeams m
  | TIME_ATTACK => (checkTimeAttackVictory now m, m)
  end.

(** Math.min(5, Math.floor(elapsed / 60000) + 1) *)
Definition chaosLevelAt (elapsed : Z) : Z := Z.min 5 (elapsed / 60000 + 1).

Definition updateChaos (now : Z) (m : ModeManager) : ModeManager :=
  let level := chaosLevelAt (now - modeStartTime m) in
  if bool_decide (chaosLevel m = Some level) then m
  else mkModeManager (currentMode m) (modeStartTime m) (currentRound m)
         (maxRounds m) (timeLimit m) (scores m) (Some level)
         (level :: chaosBroadcasts m).

(** [update]: only Chaos has per-tick work that changes anything *)
Definition update (now : Z) (m : ModeManager) : ModeManager :=
  match currentMode m with
  | CHAOS => updateChaos now m
  | _ => m
  end.

End GameModes.

(** ** DodgeballEntity: magnet targets and trail particles *)

Module BallEffects.

(** [addMagnetTarget], [removeMagnetTarget], [clearMagnetTargets] on the
    [_magnetTargets] array; a target is a player entity *)
Definition addMagnetTarget (target : string) (targets : list string)
  : list string :=
  if bool_decide (target ∈ targets) then targets else targets ++ [target].

Definition removeMagnetTarget (target : string) (targets : list string)
  : list string :=
  filter (λ t, t ≠ target) targets.

Definition clearMagnetTargets (targets : list string) : list string := [].

(** [createTrailParticle] on the lifetimes of [_trailParticles] (every
    particle has maxLifetime 1000): push a particle of lifetime 0, then
    age every particle by 16 and keep the ones still below 1000 *)
Definition createTrailParticle (inWorld : bool) (particles : list Z)
  : list Z :=
  if negb inWorld then particles
  else filter (λ l, l < 1000) ((λ l, l + 16) <$> (particles ++ [0])).

End BallEffects.

(** * Vocabulary of the properties *)

Definition joinAll (ids : list string) (g : GameManager) : GameManager :=
  foldl (λ g id, handlePlayerJoin id g) g ids.

(** RED is never behind, and never more than one ahead *)
Definition redLeadsByAtMostOne (g : GameManager) : Prop :=
  (teamCount BLUE (playerTeams g) ≤ teamCount RED (playerTeams g)
   ≤ teamCount BLUE (playerTeams g) + 1)%nat.

(** the part of a player that combat decides *)
Definition combatView (e : PlayerEntity) : bool * Z * Z * nat :=
  (isAlive e, health e, shield e, deaths e).

Definition combat (g : GameManager)
  : gmap string (bool * Z * Z * nat) * gmap string bool * GameState :=
  (combatView <$> playerEntities g, alivePlayers g, gameState g).

Definition viewOf (id : string) (g : GameManager)
  : option (bool * Z * Z * nat) :=
  combatView <$> playerEntities g !! id.

(** A round in progress between alice (RED) and bob (BLUE). *)
Definition lobby : GameManager :=
  joinAll ["alice"; "bob"] (setupGame newGameManager).

Definition arena : GameManager := _startRound lobby.

(** a fresh ball of power level 1 thrown by alice at time 0 *)
Definition aliceThrows (g : GameManager) : Sim :=
  DodgeballEntity.throw "alice"
    (mkSim 0 (DodgeballEntity.spawn 0 (DodgeballEntity.create 1)) g).

(** alice's throw reaches bob without touching anything else *)
Definition directHitOnBob (g : GameManager) : GameManager :=
  game (DodgeballEntity.run
          [DodgeballEntity.EvEntityCollision (PlayerEnt "bob")]
          (aliceThrows g)).

(** alice's throw reaches bob after one bounce off a block *)
Definition bouncedHitOnBob (g : GameManager) : GameManager :=
  game (DodgeballEntity.run
          [DodgeballEntity.EvBlockCollision;
           DodgeballEntity.EvEntityCollision (PlayerEnt "bob")]
          (aliceThrows g)).

(** both players leave during the countdown, then the round starts *)
Definition desertedRound : GameManager :=
  _startRound (handlePlayerLeave "bob" (handlePlayerLeave "alice" lobby)).

(** Invariant of a ball that was thrown at time [t0], seen at time [now]:
    while it has not bounced, either its flag is still set (and if it is in
    the world the catch window is open and its timer pending, if it has
    left the world the timer is cleared), or the timer has fired. *)
Definition catchWindowInv (t0 now : Z) (b : Dodgeball) : Prop :=
  bounceCount b = 0%nat →
  (canCatch b = true
   ∧ if ballWorld b
     then catchWindow b = Some (t0 + GameConfig.DODGEBALL_CATCH_WINDOW_MS)
          ∧ now < t0 + GameConfig.DODGEBALL_CATCH_WINDOW_MS
     else catchWindow b = None)
  ∨ (canCatch b = false ∧ t0 + GameConfig.DODGEBALL_CATCH_WINDOW_MS ≤ now).

(** Invariant of a ball that was never thrown. *)
Definition neverThrownInv (b : Dodgeball) : Prop :=
  thrower b = None ∧ catchWindow b = None
  ∧ (bounceCount b = 0%nat → canCatch b = true).

(** Invariant of a power-up: the effect is dispatched only by the call that
    sets [collected], and the host is asked to despawn only an entity that
    is in the world. *)
Definition singleUseInv (s : PowerUpSim) : Prop :=
  (length (applied s) ≤ 1)%nat
  ∧ (collected (powerUp s) = false → applied s = [])
  ∧ (despawns s ≤ 1)%nat
  ∧ (puWorld (powerUp s) = true → despawns s = 0%nat).

(** collision callbacks that the listener of a power-up ignores *)
Definition ignoredCollision (ev : PowerUpEntity.PowerUpEvent) : Prop :=
  match ev with
  | PowerUpEntity.PuCollision OtherEnt _ => True
  | PowerUpEntity.PuCollision (PlayerEnt _) false => True
  | _ => False
  end.

(** ** Vocabulary of the further properties *)

(** what the host and the timers can ask of the manager *)
Inductive ManagerOp :=
| OpJoin (id : string)
| OpLeave (id : string)
| OpTick
| OpEliminate (id : string)
| OpTakeDamage (id : string) (damage : Z)
| OpRespawn (id : string)
| OpCountdownDone
| OpRoundTimeout
| OpResetGame.

Definition applyOp (g : GameManager) (op : ManagerOp) : GameManager :=
  match op with
  | OpJoin id => handlePlayerJoin id g
  | OpLeave id => handlePlayerLeave id g
  | OpTick => updateChecks g
  | OpEliminate id => DodgeballPlayerEntity.eliminate id g
  | OpTakeDamage id damage => DodgeballPlayerEntity.takeDamage id damage g
  | OpRespawn id => DodgeballPlayerEntity.respawn id g
  | OpCountdownDone => _startRound g
  | OpRoundTimeout => roundTimeout g
  | OpResetGame => _resetGame g
  end.

Definition runOps (ops : list ManagerOp) (g : GameManager) : GameManager :=
  foldl applyOp g ops.

(** The countdown interval exists only while the state is STARTING (it is
    set by [_startCountdown] and cleared when it starts the round) and the
    reset timeout only while it is ENDING (it is set by [_endRound]). *)
Definition timerDue (op : ManagerOp) (g : GameManager) : Prop :=
  match op with
  | OpCountdownDone => gameState g = STARTING
  | OpResetGame => gameState g = ENDING
  | _ => True
  end.

Inductive managerStep : GameManager → GameManager → Prop :=
| managerStep_op g op : timerDue op g → managerStep g (applyOp g op).

(** the order of the match cycle; a reset may find enough players and
    start the next countdown at once *)
Definition lifecycleOrder (a b : GameState) : Prop :=
  a = b
  ∨ (a = WAITING ∧ b = STARTING)
  ∨ (a = STARTING ∧ b = PLAYING)
  ∨ (a = PLAYING ∧ b = ENDING)
  ∨ (a = ENDING ∧ (b = WAITING ∨ b = STARTING)).

(** the three maps of the manager describe the same roster *)
Definition rosterInv (g : GameManager) : Prop :=
  dom (playerEntities g) = dom (playerTeams g)
  ∧ dom (alivePlayers g) ⊆ dom (playerTeams g)
  ∧ (∀ id e, playerEntities g !! id = Some e →
             team e = playerTeams g !! id).

(** within a round, an entity that is out is marked out in the alive map *)
Definition outIsMarked (g : GameManager) : Prop :=
  ∀ id e, playerEntities g !! id = Some e → isAlive e = false →
          alivePlayers g !! id = Some false.

(** operations that happen inside a round: all but the start of the next
    round and the reset between rounds *)
Definition inRoundOp (op : ManagerOp) : Prop :=
  match op with
  | OpCountdownDone | OpResetGame => False
  | _ => True
  end.

(** what a round-end check can do to state and round timer *)
Definition roundEndOrSame (g g' : GameManager) : Prop :=
  (gameState g' = gameState g ∧ roundTimer g' = roundTimer g)
  ∨ (gameState g = PLAYING ∧ gameState g' = ENDING ∧ roundTimer g' = false).

(** the round timer is pending only while a round is played *)
Definition timerInv (g : GameManager) : Prop :=
  roundTimer g = true → gameState g = PLAYING.

(** some member of team [t] other than [id] is marked alive *)
Definition teammateAlive (t : Team) (id : string) (g : GameManager) : Prop :=
  ∃ id', id' ≠ id ∧ playerTeams g !! id' = Some t
         ∧ alivePlayers g !! id' = Some true.

(** the state after one more Survival check, and the checks in a row *)
Definition afterSurvivalCheck (alive : gmap string bool)
           (teams : gmap string Team) (m : ModeManager) : ModeManager :=
  (GameModes.checkSurvivalVictory alive teams m).2.

(** a ball right after its spawn at time [t0], thrown at once or not *)
Definition launch (who : option string) (powerLevel t0 : Z)
           (g : GameManager) : Sim :=
  let s := mkSim t0 (DodgeballEntity.spawn t0
                       (DodgeballEntity.create powerLevel)) g in
  match who with
  | Some w => DodgeballEntity.throw w s
  | None => s
  end.

(** Invariant of a ball spawned at [t0] with maximum lifetime [limit]: in
    the world its despawn timer is pending and not yet due, and the
    lifetime counted by the ticks is below the limit. *)
Definition lifetimeInv (t0 limit : Z) (s : Sim) : Prop :=
  maxLifetime (ball s) = limit
  ∧ (ballWorld (ball s) = true →
     despawnTimer (ball s) = Some (t0 + limit)
     ∧ clock s < t0 + limit
     ∧ lifetime (ball s) < limit).

(** events of a ball that are neither a bounce nor a catch *)
Definition noBounceNoCatch (ev : DodgeballEntity.BallEvent) : Prop :=
  match ev with
  | DodgeballEntity.EvBlockCollision | DodgeballEntity.EvCatch _ => False
  | _ => True
  end.

(** Invariant of a power-up of type [ty]: whoever waits in a suspended
    [collect] or has been notified is the one player the effect went to. *)
Definition collectorInv (ty : PowerUpType) (s : PowerUpSim) : Prop :=
  powerUpType (powerUp s) = ty
  ∧ (collected (powerUp s) = false →
     applied s = [] ∧ suspended s = [] ∧ notified s = [])
  ∧ (length (suspended s ++ notified s) ≤ 1)%nat
  ∧ (∀ q, q ∈ suspended s ++ notified s → applied s = [(q, ty)]).

(** calls on the magnet targets of a ball, and the set they describe *)
Inductive MagnetOp :=
| MagnetAdd (target : string)
| MagnetRemove (target : string)
| MagnetClear.

Definition applyMagnetOp (targets : list string) (op : MagnetOp)
  : list string :=
  match op with
  | MagnetAdd t => BallEffects.addMagnetTarget t targets
  | MagnetRemove t => BallEffects.removeMagnetTarget t targets
  | MagnetClear => BallEffects.clearMagnetTargets targets
  end.

Definition magnetSetOp (targets : gset string) (op : MagnetOp)
  : gset string :=
  match op with
  | MagnetAdd t => targets ∪ {[t]}
  | MagnetRemove t => targets ∖ {[t]}
  | MagnetClear => ∅
  end.

(** the lifetimes 16k, 16(k-1), ..., 16 of a trail of [k] particles *)
Fixpoint trailOf (k : nat) : list Z :=
  match k with
  | O => []
  | S k' => 16 * Z.of_nat k :: trailOf k'
  end.

(** * Properties *)

(** ** Team assignment *)

Section TeamBalance.

Lemma teamCount_empty t : teamCount t ∅ = 0%nat.
Proof. unfold teamCount. by rewrite map_filter_empty, map_size_empty. Qed.

Lemma teamCount_insert_fresh t t' id (m : gmap string Team) :
  m !! id = None →
  teamCount t (<[id := t']> m)
  = if decide (t' = t) then S (teamCount t m) else teamCount t m.
Proof.
  intros Hfresh. unfold teamCount. destruct (decide (t' = t)) as [->|Hne].
  - rewrite map_filter_insert_True by done.
    rewrite map_size_insert_None; [done|].
    apply map_lookup_filter_None; by left.
  - rewrite map_filter_insert_False by done.
    by rewrite delete_id.
Qed.

Lemma handlePlayerJoin_teams id g :
  playerTeams (handlePlayerJoin id g)
  = if world g then <[id := _assignTeam g]> (playerTeams g)
    else playerTeams g.
Proof.
  unfold handlePlayerJoin. destruct (world g); simpl; [|done].
  unfold _checkForGameStart, _startCountdown; simpl.
  repeat (case_match; simpl; try done).
Qed.

Lemma handlePlayerJoin_balance id g :
  playerTeams g !! id = None →
  redLeadsByAtMostOne g → redLeadsByAtMostOne (handlePlayerJoin id g).
Proof.
  intros Hfresh Hb. unfold redLeadsByAtMostOne in *.
  rewrite handlePlayerJoin_teams. destruct (world g); [|done].
  rewrite !teamCount_insert_fresh by done.
  unfold _assignTeam. case_bool_decide; repeat case_decide; try done; lia.
Qed.

Lemma handlePlayerJoin_other id id' g :
  id ≠ id' → playerTeams g !! id' = None →
  playerTeams (handlePlayerJoin id g) !! id' = None.
Proof.
  intros Hne Hnone. rewrite handlePlayerJoin_teams.
  destruct (world g); [|done]. by rewrite lookup_insert_ne.
Qed.

Lemma joinAll_balance ids : ∀ g,
  NoDup ids → (∀ id, id ∈ ids → playerTeams g !! id = None) →
  redLeadsByAtMostOne g → redLeadsByAtMostOne (joinAll ids g).
Proof.
  induction ids as [|id ids IH]; intros g Hnd Hfresh Hb; [done|].
  apply NoDup_cons in Hnd as [Hnotin Hnd]. simpl. apply IH; [done| |].
  - intros id' Hin. apply handlePlayerJoin_other.
    + intros ->. done.
    + apply Hfresh. by right.
  - apply handlePlayerJoin_balance; [|done]. apply Hfresh. by left.
Qed.

Lemma assignTeam_tie g :
  teamCount RED (playerTeams g) = teamCount BLUE (playerTeams g) →
  _assignTeam g = RED.
Proof. intros Heq. unfold _assignTeam. rewrite Heq. by case_bool_decide; [|lia]. Qed.

(** C8. Starting from empty team maps, after every join of a sequence of
    joins by distinct players (no leaves in between) the RED and BLUE
    counts differ by at most one; and a player who joins while the counts
    are equal is put on RED. *)
Theorem team_assignment_balanced (g : GameManager) (ids : list string) :
  playerTeams g = ∅ → NoDup ids →
  (∀ k, Z.abs (Z.of_nat (teamCount RED (playerTeams (joinAll (take k ids) g)))
               - Z.of_nat (teamCount BLUE
                             (playerTeams (joinAll (take k ids) g)))) ≤ 1)
  ∧ (∀ g' id, world g' = true →
       teamCount RED (playerTeams g') = teamCount BLUE (playerTeams g') →
       _assignTeam g' = RED
       ∧ playerTeams (handlePlayerJoin id g') !! id = Some RED).
Proof.
  intros Hempty Hnd. split.
  - intros k.
    assert (redLeadsByAtMostOne (joinAll (take k ids) g)) as Hb.
    { apply joinAll_balance.
      - eapply sublist_NoDup; [done|apply sublist_take].
      - intros id _. by rewrite Hempty, lookup_empty.
      - unfold redLeadsByAtMostOne. rewrite Hempty, !teamCount_empty. lia. }
    unfold redLeadsByAtMostOne in Hb. lia.
  - intros g' id Hw Heq. split; [by apply assignTeam_tie|].
    rewrite handlePlayerJoin_teams, Hw, lookup_insert_eq.
    by rewrite assignTeam_tie.
Qed.

Lemma team_assignment_balanced_witness :
  (∀ k, Z.abs (Z.of_nat (teamCount RED
                 (playerTeams (joinAll (take k ["alice"; "bob"; "carol"])
                                       (setupGame newGameManager))))
               - Z.of_nat (teamCount BLUE
                 (playerTeams (joinAll (take k ["alice"; "bob"; "carol"])
                                       (setupGame newGameManager))))) ≤ 1)
  ∧ (∀ g' id, world g' = true →
       teamCount RED (playerTeams g') = teamCount BLUE (playerTeams g') →
       _assignTeam g' = RED
       ∧ playerTeams (handlePlayerJoin id g') !! id = Some RED).
Proof.
  apply (team_assignment_balanced (setupGame newGameManager)
           ["alice"; "bob"; "carol"]).
  - reflexivity.
  - apply (bool_decide_unpack _). vm_compute. exact I.
Defined.

End TeamBalance.

(** ** Elimination of a player *)

Section Elimination.

Import DodgeballPlayerEntity.

Lemma endRound_entities w g : playerEntities (_endRound w g) = playerEntities g.
Proof. unfold _endRound. by repeat case_match. Qed.

Lemma endRound_alive w g : alivePlayers (_endRound w g) = alivePlayers g.
Proof. unfold _endRound. by repeat case_match. Qed.

Lemma checkForRoundEnd_entities g :
  playerEntities (_checkForRoundEnd g) = playerEntities g.
Proof.
  unfold _checkForRoundEnd. repeat case_match; by rewrite ?endRound_entities.
Qed.

Lemma checkForRoundEnd_alive g :
  alivePlayers (_checkForRoundEnd g) = alivePlayers g.
Proof.
  unfold _checkForRoundEnd. repeat case_match; by rewrite ?endRound_alive.
Qed.

Lemma eliminatePlayer_entities id g :
  playerEntities (eliminatePlayer id g) = playerEntities g.
Proof.
  unfold eliminatePlayer. repeat case_match; try done.
  by rewrite checkForRoundEnd_entities.
Qed.

(** the manager's own shield gate: nothing changes at all *)
Lemma eliminatePlayer_shielded id g e :
  playerEntities g !! id = Some e → 0 < shield e → eliminatePlayer id g = g.
Proof.
  intros He Hs. unfold eliminatePlayer. rewrite He.
  by replace (0 <? shield e) with true by (symmetry; by apply Z.ltb_lt).
Qed.

Lemma eliminatePlayer_unshielded_alive id g e :
  playerEntities g !! id = Some e → shield e ≤ 0 →
  alivePlayers (eliminatePlayer id g) !! id = Some false.
Proof.
  intros He Hs. unfold eliminatePlayer. rewrite He.
  replace (0 <? shield e) with false by (symmetry; by apply Z.ltb_ge).
  case_match; simpl; rewrite ?checkForRoundEnd_alive; simpl;
    by rewrite lookup_insert_eq.
Qed.

Lemma eliminate_dead id g e :
  playerEntities g !! id = Some e → isAlive e = false → eliminate id g = g.
Proof. intros He Hd. unfold eliminate. rewrite He, Hd. reflexivity. Qed.

Lemma eliminate_entities id g e :
  playerEntities g !! id = Some e → isAlive e = true →
  playerEntities (eliminate id g)
  = <[id := if 0 <? shield e then breakShield e else die e]>
      (playerEntities g).
Proof.
  intros He Ha. unfold eliminate. rewrite He, Ha. simpl.
  destruct (0 <? shield e); [by destruct (inWorld e)|].
  by rewrite eliminatePlayer_entities.
Qed.

Lemma eliminate_unshielded_alive id g e :
  playerEntities g !! id = Some e → isAlive e = true → shield e ≤ 0 →
  alivePlayers (eliminate id g) !! id = Some false.
Proof.
  intros He Ha Hs. unfold eliminate. rewrite He, Ha. simpl.
  replace (0 <? shield e) with false by (symmetry; by apply Z.ltb_ge).
  apply (eliminatePlayer_unshielded_alive _ _ (die e)); [|exact Hs].
  simpl. by rewrite lookup_insert_eq.
Qed.

Lemma iter_eliminate_dead n id g e :
  playerEntities g !! id = Some e → isAlive e = false →
  Nat.iter n (eliminate id) g = g.
Proof.
  intros He Hd. induction n as [|n IH]; [done|].
  simpl. rewrite IH. by eapply eliminate_dead.
Qed.

(** C4, as the code has it.  In every sequence of two or more [eliminate]
    calls on a player who is alive, the alive flag goes from true to false
    exactly once and the death statistic grows by exactly one; the call
    that does it is the first one when the shield is 0 and the second one
    when the shield is positive (the first then only takes the shield),
    and every call after it changes nothing. *)
Theorem eliminate_flips_alive_once (g : GameManager) (id : string)
        (e : PlayerEntity) (n : nat) :
  playerEntities g !! id = Some e → isAlive e = true →
  let g1 := eliminate id g in
  let g2 := eliminate id g1 in
  (∃ e2, playerEntities g2 !! id = Some e2
         ∧ isAlive e2 = false ∧ deaths e2 = S (deaths e))
  ∧ alivePlayers g2 !! id = Some false
  ∧ Nat.iter n (eliminate id) g2 = g2
  ∧ (shield e ≤ 0 → g2 = g1)
  ∧ (0 < shield e →
     ∃ e1, playerEntities g1 !! id = Some e1 ∧ isAlive e1 = true
           ∧ shield e1 = 0 ∧ deaths e1 = deaths e
           ∧ alivePlayers g1 = alivePlayers g).
Proof.
  intros He Ha g1 g2.
  assert (playerEntities g1 !! id
          = Some (if 0 <? shield e then breakShield e else die e)) as H1.
  { unfold g1. erewrite eliminate_entities by done. by rewrite lookup_insert_eq. }
  destruct (0 <? shield e) eqn:Hs.
  - apply Z.ltb_lt in Hs.
    assert (playerEntities g2 !! id = Some (die (breakShield e))) as H2.
    { unfold g2. erewrite eliminate_entities by done. simpl.
      by rewrite lookup_insert_eq. }
    split; [by eexists|]. split.
    { unfold g2. eapply eliminate_unshielded_alive; [exact H1|done|done]. }
    split; [by eapply iter_eliminate_dead|]. split; [lia|].
    intros _. eexists. split; [exact H1|]. repeat split; try done.
    unfold g1, eliminate. rewrite He, Ha. simpl.
    replace (0 <? shield e) with true by (symmetry; by apply Z.ltb_lt).
    by destruct (inWorld e).
  - apply Z.ltb_ge in Hs.
    assert (g2 = g1) as Hg by (unfold g2; by eapply eliminate_dead).
    rewrite Hg. split; [by eexists|]. split.
    { unfold g1. by eapply eliminate_unshielded_alive. }
    split; [by eapply iter_eliminate_dead|]. split; [done|lia].
Qed.

Lemma eliminate_flips_alive_once_witness :
  let g1 := eliminate "bob" arena in
  let g2 := eliminate "bob" g1 in
  (∃ e2, playerEntities g2 !! "bob" = Some e2
         ∧ isAlive e2 = false ∧ deaths e2 = 1%nat)
  ∧ alivePlayers g2 !! "bob" = Some false
  ∧ Nat.iter 3 (eliminate "bob") g2 = g2.
Proof.
  destruct (eliminate_flips_alive_once arena "bob"
              (spawnPlayer (setTeam (Some BLUE) newPlayerEntity)) 3)
    as (H1 & H2 & H3 & _); [reflexivity|reflexivity|].
  exact (conj H1 (conj H2 H3)).
Defined.

(** C4, as the claim words it, fails: on a player who still has the shield
    of a fresh spawn the first [eliminate] call takes the shield and the
    second call, far from being a no-op, is the one that eliminates. *)
Lemma eliminate_second_call_not_noop :
  let g1 := eliminate "bob" arena in
  let g2 := eliminate "bob" g1 in
  viewOf "bob" arena = Some (true, 100, 50, 0%nat)
  ∧ viewOf "bob" g1 = Some (true, 100, 0, 0%nat)
  ∧ viewOf "bob" g2 = Some (false, 100, 0, 1%nat)
  ∧ g2 ≠ g1.
Proof.
  split_and!; try (vm_compute; reflexivity).
  intros Heq. apply (f_equal (viewOf "bob")) in Heq.
  vm_compute in Heq. discriminate.
Qed.

(** the entity after [takeDamage] *)
Lemma takeDamage_lookup id damage g e :
  playerEntities g !! id = Some e →
  playerEntities (takeDamage id damage g) !! id
  = Some (let e1 := setHealth (health e - damage) e in
          if (health e - damage <=? 0) && isAlive e
          then (if 0 <? shield e then breakShield e1 else die e1)
          else e1).
Proof.
  intros He. unfold takeDamage. rewrite He.
  assert (playerEntities (putEntity id (setHealth (health e - damage) e) g)
            !! id = Some (setHealth (health e - damage) e)) as H1
    by (simpl; by rewrite lookup_insert_eq).
  destruct (health e - damage <=? 0); simpl; [|done].
  destruct (isAlive e) eqn:Ha.
  - erewrite eliminate_entities by done. by rewrite lookup_insert_eq.
  - by erewrite eliminate_dead by done.
Qed.

(** C7, as the code has it.  [takeDamage] lowers health by exactly the
    amount, calls [eliminate] exactly when the new health is at most zero,
    and does not clamp: the new health is [health - amount] whatever its
    sign.  The outcome of that [eliminate] is read off the player: a live
    player stays alive iff the new health is positive or a shield takes
    the blow. *)
Theorem takeDamage_decrements_and_triggers (id : string) (damage : Z)
        (g : GameManager) (e : PlayerEntity) :
  playerEntities g !! id = Some e →
  let h := health e - damage in
  takeDamage id damage g
  = (if h <=? 0 then eliminate id (putEntity id (setHealth h e) g)
     else putEntity id (setHealth h e) g)
  ∧ ∃ e', playerEntities (takeDamage id damage g) !! id = Some e'
      ∧ health e' = h
      ∧ isAlive e' = isAlive e && ((0 <? h) || (0 <? shield e))
      ∧ shield e' = (if isAlive e && (h <=? 0) && (0 <? shield e)
                     then 0 else shield e)
      ∧ deaths e' = (if isAlive e && (h <=? 0) && negb (0 <? shield e)
                     then S (deaths e) else deaths e).
Proof.
  intros He h. split; [unfold takeDamage; by rewrite He|].
  eexists. split; [by apply takeDamage_lookup|]. fold h.
  assert ((0 <? h) = negb (h <=? 0)) as Hlt.
  { destruct (h <=? 0) eqn:Hh; simpl.
    - apply Z.ltb_ge. by apply Z.leb_le.
    - apply Z.ltb_lt. by apply Z.leb_gt. }
  rewrite Hlt.
  destruct (h <=? 0), (isAlive e) eqn:Ha, (0 <? shield e); simpl;
    rewrite ?Ha; done.
Qed.

Lemma takeDamage_decrements_and_triggers_witness :
  ∃ e', playerEntities (takeDamage "bob" 80 arena) !! "bob" = Some e'
        ∧ health e' = 20.
Proof.
  destruct (takeDamage_decrements_and_triggers "bob" 80 arena
              (spawnPlayer (setTeam (Some BLUE) newPlayerEntity)))
    as (_ & e' & H1 & H2 & _); [reflexivity|].
  exists e'. split; [exact H1|exact H2].
Defined.

(** C7, as the claim words it, fails: two bounced hits of 80 on a fresh
    player leave the health at -60. *)
Lemma takeDamage_health_negative :
  ∃ e, playerEntities (takeDamage "bob" 80 (takeDamage "bob" 80 arena))
         !! "bob" = Some e
       ∧ health e = -60 ∧ health e < 0.
Proof. eexists. split; [vm_compute; reflexivity|]. by vm_compute. Qed.

End Elimination.

(** ** Shield, round end and bounced hits on the running arena *)

Section ArenaScenarios.

Import DodgeballPlayerEntity DodgeballEntity.

Lemma attemptElimination_shielded b id damage g e :
  playerEntities g !! id = Some e → 0 < shield e →
  attemptElimination b id damage g = (g, false).
Proof.
  intros He Hs. unfold attemptElimination. rewrite He.
  replace (0 <? shield e) with true by (symmetry; by apply Z.ltb_lt).
  by repeat case_match.
Qed.

Lemma eliminate_shielded id g e :
  playerEntities g !! id = Some e → isAlive e = true → 0 < shield e →
  viewOf id (eliminate id g)
  = Some (true, health e, 0, deaths e).
Proof.
  intros He Ha Hs. unfold viewOf. erewrite eliminate_entities by done.
  rewrite lookup_insert_eq.
  replace (0 <? shield e) with true by (symmetry; by apply Z.ltb_lt).
  unfold combatView. simpl. by rewrite Ha.
Qed.

(** a direct hit on a shielded player changes nothing in the game *)
Lemma direct_hit_shielded id s e :
  playerEntities (game s) !! id = Some e → 0 < shield e →
  bounceCount (ball s) = 0%nat →
  game (_onEntityCollision (PlayerEnt id) s) = game s.
Proof.
  intros He Hs Hb. unfold _onEntityCollision, _handlePlayerHit.
  rewrite He, Hb. simpl.
  repeat (case_match; simpl; try done).
  by erewrite attemptElimination_shielded.
Qed.

(** a bounced hit eliminates a live player without shield whose health it
    exhausts *)
Lemma bounced_hit_unshielded id s e t :
  ballWorld (ball s) = true → thrower (ball s) = Some t →
  (0 < bounceCount (ball s) < GameConfig.DODGEBALL_MAX_BOUNCES)%nat →
  playerEntities (game s) !! id = Some e →
  isAlive e = true → shield e ≤ 0 → health e ≤ finalDamage (ball s) →
  viewOf id (game (_onEntityCollision (PlayerEnt id) s))
  = Some (false, health e - finalDamage (ball s), shield e, S (deaths e)).
Proof.
  intros Hw Ht [Hb1 Hb2] He Ha Hs Hh.
  unfold _onEntityCollision, _handlePlayerHit, applyDamage.
  rewrite He, Ha, Hw, Ht. simpl.
  rewrite (bool_decide_eq_false_2 (bounceCount (ball s) = 0%nat)) by lia.
  rewrite andb_false_r. simpl.
  rewrite bool_decide_eq_false_2 by lia. simpl.
  unfold viewOf. simpl. erewrite takeDamage_lookup by done. simpl.
  replace (health e - finalDamage (ball s) <=? 0) with true
    by (symmetry; apply Z.leb_le; lia).
  replace (0 <? shield e) with false by (symmetry; by apply Z.ltb_ge).
  by rewrite Ha.
Qed.

(** C1 on the code.  bob, freshly spawned with the configured shield of 50,
    is hit directly by alice's throw, or is passed to the manager's
    [eliminatePlayer]: he survives with his health, but the shield is
    still 50.  Only the entity's own [eliminate] takes the shield. *)
Theorem shield_absorbs_without_being_consumed :
  viewOf "bob" arena = Some (true, 100, 50, 0%nat)
  ∧ bounceCount (ball (aliceThrows arena)) = 0%nat
  ∧ viewOf "bob" (directHitOnBob arena) = Some (true, 100, 50, 0%nat)
  ∧ viewOf "bob" (directHitOnBob (directHitOnBob arena))
    = Some (true, 100, 50, 0%nat)
  ∧ viewOf "bob" (eliminatePlayer "bob" arena) = Some (true, 100, 50, 0%nat)
  ∧ viewOf "bob" (eliminate "bob" arena) = Some (true, 100, 0, 0%nat).
Proof. split_and!; vm_compute; reflexivity. Qed.

Lemma checkForRoundEnd_red_out g :
  world g = true → gameState g = PLAYING → _getTeamAliveCount RED g = 0%nat →
  _checkForRoundEnd g = _endRound (Some BLUE) g.
Proof.
  intros Hw Hs Hr. unfold _checkForRoundEnd. rewrite Hw, Hs, Hr.
  simpl. by repeat case_bool_decide.
Qed.

Lemma checkForRoundEnd_blue_out g :
  world g = true → gameState g = PLAYING →
  (0 < _getTeamAliveCount RED g)%nat → _getTeamAliveCount BLUE g = 0%nat →
  _checkForRoundEnd g = _endRound (Some RED) g.
Proof.
  intros Hw Hs Hr Hb. unfold _checkForRoundEnd. rewrite Hw, Hs, Hb. simpl.
  case_bool_decide; [lia|reflexivity].
Qed.

Lemma endRound_names_winner t g :
  world g = true →
  gameState (_endRound (Some t) g) = ENDING
  ∧ hostLog (_endRound (Some t) g) = MsgTeamWins t :: hostLog g.
Proof. intros Hw. unfold _endRound. by rewrite Hw. Qed.

Lemma checkTeamEliminationVictory_both_out alive teams :
  GameModeManager.aliveOn RED alive teams = 0%nat →
  GameModeManager.aliveOn BLUE alive teams = 0%nat →
  GameModeManager.checkTeamEliminationVictory alive teams = None.
Proof.
  intros Hr Hb. unfold GameModeManager.checkTeamEliminationVictory.
  rewrite Hr, Hb. simpl. by repeat case_bool_decide.
Qed.

(** C2 on the code.  alice and bob leave during the countdown, the round
    starts with nobody in it, and the next tick evaluates the round end
    with zero alive on both teams: the manager ends the round and announces
    BLUE as the winner, where the mode rules' own victory check names no
    team. *)
Theorem empty_round_names_blue_winner :
  gameState desertedRound = PLAYING
  ∧ _getTeamAliveCount RED desertedRound = 0%nat
  ∧ _getTeamAliveCount BLUE desertedRound = 0%nat
  ∧ gameState (updateChecks desertedRound) = ENDING
  ∧ hostLog (updateChecks desertedRound)
    = MsgTeamWins BLUE :: hostLog desertedRound
  ∧ GameModeManager.checkTeamEliminationVictory
      (alivePlayers desertedRound) (playerTeams desertedRound) = None.
Proof. split_and!; vm_compute; reflexivity. Qed.

(** the round timer running out with both teams alive is a draw *)
Example round_timeout_is_draw :
  _getTeamAliveCount RED arena = 1%nat
  ∧ _getTeamAliveCount BLUE arena = 1%nat
  ∧ gameState (roundTimeout arena) = ENDING
  ∧ hostLog (roundTimeout arena) = MsgDraw :: hostLog arena.
Proof. split_and!; vm_compute; reflexivity. Qed.

(** C3 on the code.  Three throws of alice reach bob after one bounce each
    (bounce count 1, maximum 3).  The first leaves him at health 20, the
    second takes his shield, the third eliminates him and ends the round. *)
Theorem bounced_hit_eliminates :
  let g2 := bouncedHitOnBob (bouncedHitOnBob arena) in
  let g3 := bouncedHitOnBob g2 in
  bounceCount (ball (run [EvBlockCollision] (aliceThrows g2))) = 1%nat
  ∧ finalDamage (ball (run [EvBlockCollision] (aliceThrows g2))) = 80
  ∧ viewOf "bob" (bouncedHitOnBob arena) = Some (true, 20, 50, 0%nat)
  ∧ viewOf "bob" g2 = Some (true, -60, 0, 0%nat)
  ∧ viewOf "bob" g3 = Some (false, -140, 0, 1%nat)
  ∧ alivePlayers g3 !! "bob" = Some false
  ∧ gameState g2 = PLAYING
  ∧ gameState g3 = ENDING.
Proof. split_and!; vm_compute; reflexivity. Qed.

End ArenaScenarios.

(** ** The projectile: catch window, spent balls, balls never thrown *)

Section Projectile.

Import DodgeballPlayerEntity DodgeballEntity.

Lemma run_cons ev evs s : run (ev :: evs) s = run evs (step ev s).
Proof. reflexivity. Qed.

(** A collision with an entity or a catch leaves the ball as it is or
    despawns it, and never moves the clock. *)
Lemma handlePlayerHit_ball id s :
  clock (_handlePlayerHit id s) = clock s
  ∧ (ball (_handlePlayerHit id s) = ball s
     ∨ ball (_handlePlayerHit id s) = despawn (ball s)).
Proof. unfold _handlePlayerHit. repeat case_match; simpl; auto. Qed.

Lemma onEntityCollision_ball h s :
  clock (_onEntityCollision h s) = clock s
  ∧ (ball (_onEntityCollision h s) = ball s
     ∨ ball (_onEntityCollision h s) = despawn (ball s)).
Proof.
  unfold _onEntityCollision.
  repeat case_match; simpl; auto using handlePlayerHit_ball.
Qed.

Lemma catch_ball c s :
  clock (catch c s) = clock s
  ∧ (ball (catch c s) = ball s ∨ ball (catch c s) = despawn (ball s)).
Proof. unfold catch. repeat case_match; simpl; auto. Qed.

(** *** Catch window *)

Lemma catchWindowInv_despawn t0 now b :
  catchWindowInv t0 now b → catchWindowInv t0 now (despawn b).
Proof.
  unfold catchWindowInv. simpl. intros Hinv Hb.
  destruct (Hinv Hb) as [[Hc _]|Hfired]; [by left|by right].
Qed.

Lemma catchWindowInv_onTick t0 now dt b :
  catchWindowInv t0 now b → catchWindowInv t0 now (_onTick dt b).
Proof.
  intros Hinv. unfold _onTick.
  destruct (ballWorld b) eqn:Hw; simpl; [|done].
  assert (catchWindowInv t0 now
            (mkDodgeball (ballWorld b) (thrower b) (bounceCount b)
               (canCatch b) (catchWindow b) (lifetime b + dt)
               (maxLifetime b) (powerLevel b) (damageMultiplier b)
               (despawnTimer b))) as Hinv' by exact Hinv.
  rewrite Hw in Hinv'.
  case_match; [by apply catchWindowInv_despawn|done].
Qed.

Lemma catchWindowInv_advance t0 dt s :
  0 ≤ dt →
  catchWindowInv t0 (clock s) (ball s) →
  catchWindowInv t0 (clock (advance dt s)) (ball (advance dt s)).
Proof.
  intros Hdt Hinv.
  unfold catchWindowInv, advance, fireCatchWindow, fireDespawnTimer, despawn
    in *.
  destruct s as [now b g]. destruct b as [w th n cc cw lt ml pl dm dtm].
  simpl in *.
  intros Hn.
  assert (n = 0%nat) as Hn0.
  { revert Hn. repeat (case_match; simpl); done. }
  specialize (Hinv Hn0). clear Hn.
  unfold GameConfig.DODGEBALL_CATCH_WINDOW_MS in *.
  destruct Hinv as [[Hc Hw]|[Hc Hfired]]; subst cc.
  - destruct w.
    + destruct Hw as [-> Hlt]. simpl.
      destruct dtm as [d|]; simpl;
        repeat (case_match; simpl in *; simplify_eq);
        try (left; split; [done|]; split; [done|lia]);
        try (by left); try (right; split; [done|lia]); lia.
    + subst cw. simpl. destruct dtm as [d|]; simpl;
        repeat (case_match; simpl in *; simplify_eq); by left.
  - right. split; [|lia].
    repeat (case_match; simpl in *; simplify_eq); done.
Qed.

Lemma catchWindowInv_step t0 ev s :
  catchWindowInv t0 (clock s) (ball s) →
  catchWindowInv t0 (clock (step ev s)) (ball (step ev s)).
Proof.
  intros Hinv. destruct ev as [|h|dt|dt|c]; simpl.
  - intros Hb. discriminate Hb.
  - destruct (onEntityCollision_ball h s) as [-> [->| ->]];
      auto using catchWindowInv_despawn.
  - by apply catchWindowInv_onTick.
  - apply catchWindowInv_advance; [lia|done].
  - destruct (catch_ball c s) as [-> [->| ->]];
      auto using catchWindowInv_despawn.
Qed.

Lemma catchWindowInv_run t0 evs : ∀ s,
  catchWindowInv t0 (clock s) (ball s) →
  catchWindowInv t0 (clock (run evs s)) (ball (run evs s)).
Proof.
  induction evs as [|ev evs IH]; intros s Hinv; [done|].
  rewrite run_cons. by apply IH, catchWindowInv_step.
Qed.

Lemma catchWindowInv_throw who s :
  ballWorld (ball s) = true →
  catchWindowInv (clock s) (clock (throw who s)) (ball (throw who s)).
Proof.
  intros Hw. unfold throw. rewrite Hw. simpl. intros _. left. simpl.
  split_and!; [done|done|]. unfold GameConfig.DODGEBALL_CATCH_WINDOW_MS. lia.
Qed.

(** C5.  A ball is thrown at time [clock s0]; anything may happen to it
    afterwards (bounces, ticks, time passing, collisions, catches).  As
    long as it is in the world, [canBeCaught] holds exactly when it has
    not bounced and less than the catch window has elapsed since the
    throw.  Two halves of this do not even need the ball to be in the
    world: a catchable ball has not bounced, and a ball that has not
    bounced is catchable throughout the window. *)
Theorem canBeCaught_iff_unbounced_in_window (s0 : Sim) (who : string)
        (evs : list BallEvent) :
  ballWorld (ball s0) = true →
  (ballWorld (ball (run evs (throw who s0))) = true →
   canBeCaught (ball (run evs (throw who s0))) = true
   ↔ bounceCount (ball (run evs (throw who s0))) = 0%nat
     ∧ clock (run evs (throw who s0)) - clock s0
       < GameConfig.DODGEBALL_CATCH_WINDOW_MS)
  ∧ (canBeCaught (ball (run evs (throw who s0))) = true →
     bounceCount (ball (run evs (throw who s0))) = 0%nat)
  ∧ (bounceCount (ball (run evs (throw who s0))) = 0%nat →
     clock (run evs (throw who s0)) - clock s0
     < GameConfig.DODGEBALL_CATCH_WINDOW_MS →
     canBeCaught (ball (run evs (throw who s0))) = true).
Proof.
  intros Hw0.
  pose proof (catchWindowInv_run (clock s0) evs _
                (catchWindowInv_throw who s0 Hw0)) as Hinv.
  unfold catchWindowInv in Hinv. unfold canBeCaught.
  rewrite andb_true_iff, bool_decide_eq_true.
  assert (bounceCount (ball (run evs (throw who s0))) = 0%nat →
          clock (run evs (throw who s0)) - clock s0
          < GameConfig.DODGEBALL_CATCH_WINDOW_MS →
          canCatch (ball (run evs (throw who s0))) = true) as Hopen.
  { intros Hb Hlt. destruct (Hinv Hb) as [[Hc _]|[_ Hge]]; [done|lia]. }
  split_and!.
  - intros Hw. split.
    + intros [Hc Hb]. split; [done|].
      destruct (Hinv Hb) as [[_ Hin]|[Hc' _]]; [|congruence].
      rewrite Hw in Hin. lia.
    + intros [Hb Hlt]. auto.
  - by intros [_ Hb].
  - auto.
Qed.

Lemma canBeCaught_iff_unbounced_in_window_witness :
  canBeCaught (ball (run [EvAdvance 100] (aliceThrows arena))) = true
  ↔ bounceCount (ball (run [EvAdvance 100] (aliceThrows arena))) = 0%nat
    ∧ clock (run [EvAdvance 100] (aliceThrows arena)) - 0
      < GameConfig.DODGEBALL_CATCH_WINDOW_MS.
Proof.
  apply (canBeCaught_iff_unbounced_in_window
           (mkSim 0 (spawn 0 (create 1)) arena) "alice" [EvAdvance 100]);
    reflexivity.
Defined.

(** the two conditions, each failing alone *)
Example uncatchable_past_window :
  let s := run [EvAdvance 250] (aliceThrows arena) in
  bounceCount (ball s) = 0%nat ∧ ballWorld (ball s) = true
  ∧ canBeCaught (ball s) = false.
Proof. split_and!; vm_compute; reflexivity. Qed.

Example uncatchable_after_bounce :
  let s := run [EvAdvance 100; EvBlockCollision] (aliceThrows arena) in
  clock s = 100 ∧ ballWorld (ball s) = true ∧ canBeCaught (ball s) = false.
Proof. split_and!; vm_compute; reflexivity. Qed.

(** *** Spent balls *)

Lemma combat_applyImpulse id f g : combat (applyImpulse id f g) = combat g.
Proof.
  unfold applyImpulse. destruct (playerEntities g !! id) as [e|] eqn:He;
    [|done].
  unfold combat. simpl. rewrite fmap_insert. f_equal. f_equal.
  apply insert_id. by rewrite lookup_fmap, He.
Qed.

Lemma handlePlayerHit_spent id s :
  (GameConfig.DODGEBALL_MAX_BOUNCES ≤ bounceCount (ball s))%nat →
  _handlePlayerHit id s
  = if ballWorld (ball s) && bool_decide (is_Some (thrower (ball s)))
    then mkSim (clock s) (despawn (ball s))
               (applyImpulse id (5 * powerLevel (ball s)) (game s))
    else s.
Proof.
  intros Hmax. unfold _handlePlayerHit, applyHitKnockback.
  rewrite (bool_decide_eq_true_2 _ Hmax).
  by destruct (ballWorld (ball s)), (bool_decide (is_Some (thrower (ball s)))).
Qed.

Lemma spent_step ev s :
  (GameConfig.DODGEBALL_MAX_BOUNCES ≤ bounceCount (ball s))%nat →
  combat (game (step ev s)) = combat (game s)
  ∧ (GameConfig.DODGEBALL_MAX_BOUNCES ≤ bounceCount (ball (step ev s)))%nat.
Proof.
  intros Hmax. destruct ev as [|h|dt|dt|c]; simpl.
  - split; [done|lia].
  - unfold _onEntityCollision. repeat case_match; try done.
    rewrite handlePlayerHit_spent by done.
    case_match; [|done]. simpl. by rewrite combat_applyImpulse.
  - split; [done|]. unfold _onTick. by repeat case_match.
  - split; [done|]. unfold advance, fireCatchWindow, fireDespawnTimer.
    by repeat (case_match; simpl).
  - unfold catch, canBeCaught.
    rewrite (bool_decide_eq_false_2 (bounceCount (ball s) = 0%nat)).
    + by rewrite andb_false_r.
    + unfold GameConfig.DODGEBALL_MAX_BOUNCES in Hmax. lia.
Qed.

Lemma spent_run evs : ∀ s,
  (GameConfig.DODGEBALL_MAX_BOUNCES ≤ bounceCount (ball s))%nat →
  combat (game (run evs s)) = combat (game s)
  ∧ (GameConfig.DODGEBALL_MAX_BOUNCES ≤ bounceCount (ball (run evs s)))%nat.
Proof.
  induction evs as [|ev evs IH]; intros s Hmax; [done|].
  rewrite run_cons. destruct (spent_step ev s Hmax) as [Hc Hb].
  destruct (IH _ Hb) as [Hc' Hb']. split; [congruence|done].
Qed.

(** C6.  Once the bounce count of a ball has reached the maximum, whatever
    happens to the ball afterwards (further bounces, collisions with any
    player, ticks, catch attempts), nobody's alive flag, health, shield or
    death count changes, nor the manager's alive map or game state, for
    every power level and damage multiplier; a hit by such a ball is
    knockback followed by the despawn of the ball, and nothing else. *)
Theorem spent_ball_never_eliminates (s : Sim) (evs : list BallEvent) :
  (GameConfig.DODGEBALL_MAX_BOUNCES ≤ bounceCount (ball s))%nat →
  combat (game (run evs s)) = combat (game s)
  ∧ (GameConfig.DODGEBALL_MAX_BOUNCES ≤ bounceCount (ball (run evs s)))%nat
  ∧ ∀ id, _handlePlayerHit id s
          = if ballWorld (ball s) && bool_decide (is_Some (thrower (ball s)))
            then mkSim (clock s) (despawn (ball s))
                       (applyImpulse id (5 * powerLevel (ball s)) (game s))
            else s.
Proof.
  intros Hmax. destruct (spent_run evs s Hmax) as [Hc Hb].
  split_and!; [done|done|]. intros id. by apply handlePlayerHit_spent.
Qed.

Lemma spent_ball_never_eliminates_witness :
  let s := run [EvBlockCollision; EvBlockCollision; EvBlockCollision]
               (aliceThrows arena) in
  combat (game (run [EvEntityCollision (PlayerEnt "bob")] s))
  = combat (game s).
Proof.
  intros s.
  apply (spent_ball_never_eliminates s [EvEntityCollision (PlayerEnt "bob")]).
  vm_compute. lia.
Defined.

(** *** Balls that were never thrown *)

Lemma neverThrownInv_step ev s :
  neverThrownInv (ball s) →
  neverThrownInv (ball (step ev s)) ∧ game (step ev s) = game s.
Proof.
  intros (Ht & Hcw & Hc). destruct ev as [|h|dt|dt|c]; simpl.
  - split; [|done]. unfold neverThrownInv, _onBlockCollision. simpl.
    split_and!; [done|by case_match|done].
  - unfold _onEntityCollision, _handlePlayerHit. rewrite Ht. simpl.
    rewrite andb_false_r || rewrite orb_true_r.
    by repeat case_match.
  - split; [|done]. unfold neverThrownInv, _onTick, despawn.
    by repeat (case_match; simpl).
  - split; [|done]. unfold neverThrownInv, advance, fireCatchWindow,
      fireDespawnTimer, despawn. simpl. rewrite Hcw. simpl.
    by repeat (case_match; simpl).
  - unfold catch. rewrite Ht. by repeat (case_match; simpl).
Qed.

Lemma neverThrownInv_run evs : ∀ s,
  neverThrownInv (ball s) →
  neverThrownInv (ball (run evs s)) ∧ game (run evs s) = game s.
Proof.
  induction evs as [|ev evs IH]; intros s Hinv; [done|].
  rewrite run_cons. destruct (neverThrownInv_step ev s Hinv) as [Hi Hg].
  destruct (IH _ Hi) as [Hi' Hg']. split; [done|congruence].
Qed.

(** C10, as the code has it.  A ball that was spawned and never thrown has
    no catch timer, so the passing of time never makes it uncatchable; but
    it bounces like any other ball: [canBeCaught] holds exactly as long as
    the ball has not yet collided with a block.  Such a ball never changes
    the game, and catching it, while that is possible, despawns it and
    eliminates nobody. *)
Theorem unthrown_ball_catchable_until_first_bounce (powerLevel t0 : Z)
        (g : GameManager) (evs : list BallEvent) (catcher : string) :
  let s := run evs (mkSim t0 (spawn t0 (create powerLevel)) g) in
  thrower (ball s) = None
  ∧ canBeCaught (ball s) = bool_decide (bounceCount (ball s) = 0%nat)
  ∧ game s = g
  ∧ catch catcher s
    = if canBeCaught (ball s) && ballWorld (ball s)
      then mkSim (clock s) (despawn (ball s)) g
      else s.
Proof.
  intros s.
  destruct (neverThrownInv_run evs (mkSim t0 (spawn t0 (create powerLevel)) g))
    as [(Ht & Hcw & Hc) Hg]; [done|].
  fold s in Ht, Hcw, Hc, Hg. simpl in Hg.
  split_and!; [done| |done|].
  - unfold canBeCaught. case_bool_decide as Hb.
    + by rewrite Hc.
    + by rewrite andb_false_r.
  - unfold catch. rewrite Ht, Hg.
    by destruct (canBeCaught (ball s)), (ballWorld (ball s)).
Qed.

(** C10, as the claim words it, fails: a ball spawned at the start of the
    round and never thrown stops being catchable at its first bounce. *)
Lemma unthrown_ball_uncatchable_after_bounce :
  let s := run [EvAdvance 1000; EvBlockCollision]
               (mkSim 0 (spawn 0 (create 1)) arena) in
  thrower (ball s) = None ∧ ballWorld (ball s) = true
  ∧ bounceCount (ball s) = 1%nat ∧ canBeCaught (ball s) = false.
Proof. split_and!; vm_compute; reflexivity. Qed.

End Projectile.

(** ** The power-up: single consumption *)

Section PowerUp.

Import PowerUpEntity.

Lemma pu_run_cons ev evs s : run (ev :: evs) s = run evs (step ev s).
Proof. reflexivity. Qed.

Lemma pu_run_app evs1 evs2 s : run (evs1 ++ evs2) s = run evs2 (run evs1 s).
Proof. unfold run. by rewrite foldl_app. Qed.

Lemma singleUseInv_spawn ty : singleUseInv (spawn (create ty)).
Proof. unfold singleUseInv. simpl. split_and!; auto. Qed.

Lemma singleUseInv_step ev s : singleUseInv s → singleUseInv (step ev s).
Proof.
  intros (Hlen & Hnone & Hd & Hw). destruct s as [[ty c w a] sus app ntf d].
  simpl in *. destruct ev as [[p|] st| |]; simpl.
  - unfold onEntityCollision, collect, singleUseInv. simpl.
    destruct st, c; simpl; try (split_and!; by auto).
    destruct w; simpl; [|split_and!; by auto].
    rewrite Hnone by done. simpl. split_and!; auto; done.
  - unfold singleUseInv. simpl. split_and!; by auto.
  - unfold resume, singleUseInv. simpl.
    destruct sus as [|p rest]; simpl; [split_and!; by auto|].
    destruct w; simpl; [|split_and!; by auto].
    rewrite Hw by done. split_and!; auto; done.
  - unfold onDespawnTimer, singleUseInv. simpl.
    destruct a; simpl; [|split_and!; by auto].
    destruct w; simpl; [|split_and!; by auto].
    rewrite Hw by done. split_and!; auto; done.
Qed.

Lemma singleUseInv_run evs : ∀ s, singleUseInv s → singleUseInv (run evs s).
Proof.
  induction evs as [|ev evs IH]; intros s Hinv; [done|].
  rewrite pu_run_cons. by apply IH, singleUseInv_step.
Qed.

(** once collected, a collision callback changes nothing *)
Lemma collision_after_collected o st s :
  collected (powerUp s) = true → onEntityCollision o st s = s.
Proof.
  intros Hc. unfold onEntityCollision. destruct o; [|done].
  rewrite Hc. by rewrite andb_false_r.
Qed.

(** the dispatched effect stays what the collecting call made it *)
Lemma applied_stable_step ev s :
  collected (powerUp s) = true →
  collected (powerUp (step ev s)) = true ∧ applied (step ev s) = applied s.
Proof.
  intros Hc. destruct ev as [o st| |]; simpl.
  - by rewrite collision_after_collected.
  - unfold resume. by repeat (case_match; simpl).
  - unfold onDespawnTimer. by repeat (case_match; simpl).
Qed.

Lemma applied_stable_run evs : ∀ s,
  collected (powerUp s) = true →
  collected (powerUp (run evs s)) = true ∧ applied (run evs s) = applied s.
Proof.
  induction evs as [|ev evs IH]; intros s Hc; [done|].
  rewrite pu_run_cons. destruct (applied_stable_step ev s Hc) as [Hc' Ha].
  destruct (IH _ Hc') as [Hc'' Ha']. split; [done|congruence].
Qed.

Lemma ignored_run pre : ∀ s, Forall ignoredCollision pre → run pre s = s.
Proof.
  induction pre as [|ev pre IH]; intros s Hall; [done|].
  apply Forall_cons in Hall as [Hev Hall]. rewrite pu_run_cons.
  rewrite <- (IH s Hall) at 2. f_equal.
  destruct ev as [[p|] [|]| |]; simpl in *; done.
Qed.

(** C9.  For a spawned power-up of any type and any sequence of collision
    callbacks, resumptions of suspended [collect] calls and timer
    callbacks: at most one effect is dispatched and the host is asked to
    despawn at most once; once the flag is set every collision callback is
    a no-op; and the effect goes to the first player whose collision is
    not ignored by the listener, whatever follows. *)
Theorem powerup_single_consumption (ty : PowerUpType)
        (evs : list PowerUpEvent) :
  (length (applied (run evs (spawn (create ty)))) ≤ 1)%nat
  ∧ (despawns (run evs (spawn (create ty))) ≤ 1)%nat
  ∧ (∀ o st, collected (powerUp (run evs (spawn (create ty)))) = true →
       onEntityCollision o st (run evs (spawn (create ty)))
       = run evs (spawn (create ty)))
  ∧ (∀ pre p, Forall ignoredCollision pre →
       applied (run (pre ++ PuCollision (PlayerEnt p) true :: evs)
                    (spawn (create ty))) = [(p, ty)]).
Proof.
  destruct (singleUseInv_run evs _ (singleUseInv_spawn ty))
    as (Hlen & _ & Hd & _).
  split_and!; [done|done| |].
  - intros o st Hc. by apply collision_after_collected.
  - intros pre p Hpre. rewrite pu_run_app, (ignored_run pre) by done.
    rewrite pu_run_cons.
    by destruct (applied_stable_run evs
                   (step (PuCollision (PlayerEnt p) true) (spawn (create ty))))
      as [_ ->].
Qed.

Lemma powerup_single_consumption_witness :
  applied (run ([PuCollision OtherEnt true]
                ++ PuCollision (PlayerEnt "alice") true
                   :: [PuCollision (PlayerEnt "bob") true; PuResume;
                       PuTimer; PuResume])
               (spawn (create SHIELD)))
  = [("alice", SHIELD)].
Proof.
  destruct (powerup_single_consumption SHIELD
              [PuCollision (PlayerEnt "bob") true; PuResume; PuTimer;
               PuResume]) as (_ & _ & _ & H).
  apply (H [PuCollision OtherEnt true] "alice").
  apply Forall_cons. split; [exact I|apply Forall_nil_2].
Defined.

(** two callbacks back to back, before the first [collect] has resumed *)
Example powerup_double_collision :
  let s := run [PuCollision (PlayerEnt "alice") true;
                PuCollision (PlayerEnt "bob") true; PuResume; PuResume]
               (spawn (create SPEED_BOOST)) in
  applied s = [("alice", SPEED_BOOST)] ∧ notified s = ["alice"]
  ∧ despawns s = 1%nat.
Proof. split_and!; reflexivity. Qed.

End PowerUp.

(** * Further properties *)

#[local] Set Warnings "-clear-no-such-hyp".

(** ** The manager's maps and counts *)

Section ManagerMaps.

Import DodgeballPlayerEntity.

Lemma endRound_teams w g : playerTeams (_endRound w g) = playerTeams g.
Proof. unfold _endRound. by repeat case_match. Qed.

Lemma checkForRoundEnd_teams g :
  playerTeams (_checkForRoundEnd g) = playerTeams g.
Proof.
  unfold _checkForRoundEnd. repeat case_match; by rewrite ?endRound_teams.
Qed.

Lemma checkForGameStart_maps g :
  playerEntities (_checkForGameStart g) = playerEntities g
  ∧ playerTeams (_checkForGameStart g) = playerTeams g
  ∧ alivePlayers (_checkForGameStart g) = alivePlayers g.
Proof.
  unfold _checkForGameStart, _startCountdown. by repeat case_match.
Qed.

(** the ids that are alive and on team [t], as a set *)
Lemma aliveOn_dom t (alive : gmap string bool) (teams : gmap string Team) :
  dom (filter (λ kv : string * bool, kv.2 = true ∧ teams !! kv.1 = Some t)
              alive)
  = dom (filter (λ kv : string * Team, kv.2 = t ∧ alive !! kv.1 = Some true)
                teams).
Proof.
  apply set_eq. intros id. rewrite !elem_of_dom. unfold is_Some.
  setoid_rewrite map_lookup_filter_Some. simpl. split.
  - intros (b & Hb & -> & Ht). eauto.
  - intros (t' & Ht & -> & Hb). eauto.
Qed.

(** X1.  The mode rules count the alive members of a team over the alive
    map, the manager counts them over the team map: the two counts are the
    same number.  So whenever the mode rules' team-elimination check names
    a winner, the manager's round-end check ends the round for that team,
    and when it names none the manager leaves the round running unless
    both teams are at zero. *)
Theorem victory_checks_agree (g : GameManager) :
  (∀ t, GameModeManager.aliveOn t (alivePlayers g) (playerTeams g)
        = _getTeamAliveCount t g)
  ∧ (world g = true → gameState g = PLAYING →
     match GameModeManager.checkTeamEliminationVictory
             (alivePlayers g) (playerTeams g) with
     | Some t => _checkForRoundEnd g = _endRound (Some t) g
     | None =>
         _checkForRoundEnd g = g
         ∨ (_getTeamAliveCount RED g = 0%nat
            ∧ _getTeamAliveCount BLUE g = 0%nat)
     end).
Proof.
  assert (∀ t, GameModeManager.aliveOn t (alivePlayers g) (playerTeams g)
               = _getTeamAliveCount t g) as Hcount.
  { intros t. unfold GameModeManager.aliveOn, _getTeamAliveCount.
    rewrite <- !(size_dom (D := gset string)). by rewrite aliveOn_dom. }
  split; [done|]. intros Hw Hs.
  unfold GameModeManager.checkTeamEliminationVictory, _checkForRoundEnd.
  rewrite !Hcount, Hw, Hs. simpl.
  repeat case_bool_decide; simpl; auto; lia.
Qed.

Lemma victory_checks_agree_witness :
  match GameModeManager.checkTeamEliminationVictory
          (alivePlayers arena) (playerTeams arena) with
  | Some t => _checkForRoundEnd arena = _endRound (Some t) arena
  | None =>
      _checkForRoundEnd arena = arena
      ∨ (_getTeamAliveCount RED arena = 0%nat
         ∧ _getTeamAliveCount BLUE arena = 0%nat)
  end.
Proof.
  apply (proj2 (victory_checks_agree arena)); reflexivity.
Defined.

Lemma teamCount_partition (teams : gmap string Team) :
  (teamCount RED teams + teamCount BLUE teams = size teams)%nat.
Proof.
  induction teams as [|id t teams Hfresh IH] using map_ind.
  - by rewrite !teamCount_empty, map_size_empty.
  - rewrite !teamCount_insert_fresh, map_size_insert_None by done.
    destruct t; repeat case_decide; try done; lia.
Qed.

Lemma teamAlive_le_teamCount t g :
  (_getTeamAliveCount t g ≤ teamCount t (playerTeams g))%nat.
Proof.
  unfold _getTeamAliveCount, teamCount. apply map_subseteq_size.
  apply map_filter_subseteq_ext. by intros id t' _ [Ht _].
Qed.

(** X2.  In the statistics of [getGameStats] the two team sizes add up to
    the number of players, no team has more alive members than members,
    and the alive members of the two teams together are at most the number
    of players marked alive. *)
Theorem game_stats_consistent (g : GameManager) :
  (redPlayers (getGameStats g) + bluePlayers (getGameStats g)
   = totalPlayers (getGameStats g))%nat
  ∧ (redAlive (getGameStats g) ≤ redPlayers (getGameStats g))%nat
  ∧ (blueAlive (getGameStats g) ≤ bluePlayers (getGameStats g))%nat
  ∧ (redAlive (getGameStats g) + blueAlive (getGameStats g)
     ≤ alivePlayersCount (getGameStats g))%nat.
Proof.
  unfold getGameStats. simpl.
  split_and!; auto using teamCount_partition, teamAlive_le_teamCount.
  unfold _getTeamAliveCount.
  rewrite <- !(size_dom (D := gset string)), <- !aliveOn_dom.
  rewrite <- size_union.
  - apply subseteq_size. intros id. rewrite elem_of_union, !elem_of_dom.
    unfold is_Some. setoid_rewrite map_lookup_filter_Some. simpl.
    intros [(b & Hb & -> & _)|(b & Hb & -> & _)]; eauto.
  - intros id. rewrite !elem_of_dom. unfold is_Some.
    setoid_rewrite map_lookup_filter_Some. simpl.
    intros (b & _ & _ & Hr) (b' & _ & _ & Hb). congruence.
Qed.

(** X3.  [_startRound] with the world attached puts the match in PLAYING
    with every player of the roster marked alive, so each team starts the
    round with all its members; it leaves teams and entities alone (an
    entity that was out in the last round stays out). *)
Theorem startRound_revives_roster (g : GameManager) :
  world g = true →
  gameState (_startRound g) = PLAYING
  ∧ (∀ id t, playerTeams g !! id = Some t →
             alivePlayers (_startRound g) !! id = Some true)
  ∧ (∀ t, _getTeamAliveCount t (_startRound g)
          = teamCount t (playerTeams g))
  ∧ playerTeams (_startRound g) = playerTeams g
  ∧ playerEntities (_startRound g) = playerEntities g.
Proof.
  intros Hw. unfold _startRound. rewrite Hw. simpl.
  assert (∀ id t, playerTeams g !! id = Some t →
            (((λ _, true) <$> playerTeams g) ∪ alivePlayers g) !! id
            = Some true) as Halive.
  { intros id t Ht. apply lookup_union_Some_l. by rewrite lookup_fmap, Ht. }
  split_and!; try done.
  intros t. unfold _getTeamAliveCount, teamCount. simpl. f_equal.
  apply map_filter_ext. intros id t' Ht'. simpl.
  split; [by intros [? _]|]. intros ->. split; [done|]. by eapply Halive.
Qed.

Lemma startRound_revives_roster_witness :
  gameState (_startRound lobby) = PLAYING
  ∧ _getTeamAliveCount RED (_startRound lobby) = 1%nat.
Proof.
  destruct (startRound_revives_roster lobby) as (H1 & _ & H3 & _);
    [reflexivity|].
  split; [exact H1|]. rewrite H3. vm_compute. reflexivity.
Defined.

End ManagerMaps.

(** ** Roster and alive map under the manager's operations *)

Section Roster.

Import DodgeballPlayerEntity.

Lemma handlePlayerJoin_maps id g :
  world g = true →
  playerEntities (handlePlayerJoin id g)
  = <[id := spawnPlayer (setTeam (Some (_assignTeam g)) newPlayerEntity)]>
      (playerEntities g)
  ∧ playerTeams (handlePlayerJoin id g)
    = <[id := _assignTeam g]> (playerTeams g)
  ∧ alivePlayers (handlePlayerJoin id g) = <[id := true]> (alivePlayers g).
Proof.
  intros Hw. unfold handlePlayerJoin. rewrite Hw. simpl.
  match goal with
  | |- context [_checkForGameStart ?x] =>
      destruct (checkForGameStart_maps x) as (-> & -> & ->)
  end.
  simpl. by rewrite insert_insert_eq.
Qed.

Lemma handlePlayerLeave_maps id g :
  world g = true →
  playerEntities (handlePlayerLeave id g) = delete id (playerEntities g)
  ∧ playerTeams (handlePlayerLeave id g) = delete id (playerTeams g)
  ∧ alivePlayers (handlePlayerLeave id g) = delete id (alivePlayers g).
Proof.
  intros Hw. unfold handlePlayerLeave. rewrite Hw. simpl.
  case_bool_decide;
    by rewrite ?checkForRoundEnd_entities, ?checkForRoundEnd_teams,
               ?checkForRoundEnd_alive.
Qed.

Lemma eliminatePlayer_teams id g :
  playerTeams (eliminatePlayer id g) = playerTeams g.
Proof.
  unfold eliminatePlayer. repeat case_match; try done.
  by rewrite checkForRoundEnd_teams.
Qed.

Lemma eliminatePlayer_alive id g :
  alivePlayers (eliminatePlayer id g) = alivePlayers g
  ∨ (is_Some (playerEntities g !! id)
     ∧ alivePlayers (eliminatePlayer id g) = <[id := false]> (alivePlayers g)).
Proof.
  unfold eliminatePlayer. destruct (playerEntities g !! id) eqn:He; [|by left].
  repeat case_match; auto; right; (split; [done|]);
    by rewrite ?checkForRoundEnd_alive.
Qed.

Lemma eliminate_teams id g : playerTeams (eliminate id g) = playerTeams g.
Proof.
  unfold eliminate. repeat case_match; try done.
  by rewrite eliminatePlayer_teams.
Qed.

Lemma eliminate_alive id g :
  alivePlayers (eliminate id g) = alivePlayers g
  ∨ (is_Some (playerEntities g !! id)
     ∧ alivePlayers (eliminate id g) = <[id := false]> (alivePlayers g)).
Proof.
  unfold eliminate. destruct (playerEntities g !! id) as [e|] eqn:He;
    [|by left].
  repeat case_match; auto.
  destruct (eliminatePlayer_alive id
              (emit [AchRecordDeath id] (putEntity id (die e) g)))
    as [->|[_ ->]]; auto.
Qed.

(** the entity map after an operation on one entity: the same keys, and
    every entity keeps its team *)
Lemma eliminate_entity_teams id g id' e' :
  playerEntities (eliminate id g) !! id' = Some e' →
  ∃ e, playerEntities g !! id' = Some e ∧ team e' = team e.
Proof.
  unfold eliminate. destruct (playerEntities g !! id) as [e|] eqn:He;
    [|eauto].
  destruct (isAlive e); simpl; [|eauto].
  assert (∀ e1, team e1 = team e →
            <[id := e1]> (playerEntities g) !! id' = Some e' →
            ∃ e0, playerEntities g !! id' = Some e0 ∧ team e' = team e0)
    as Hput.
  { intros e1 Ht. destruct (decide (id = id')) as [->|Hne].
    - rewrite lookup_insert_eq. intros [= <-]. eauto.
    - rewrite lookup_insert_ne by done. eauto. }
  destruct (0 <? shield e).
  - destruct (inWorld e); simpl; by apply Hput.
  - rewrite eliminatePlayer_entities. simpl. by apply Hput.
Qed.

Lemma eliminate_dom id g :
  dom (playerEntities (eliminate id g)) = dom (playerEntities g).
Proof.
  unfold eliminate. destruct (playerEntities g !! id) as [e|] eqn:He;
    [|done].
  assert (id ∈ dom (playerEntities g)) by by eapply elem_of_dom_2.
  repeat case_match; rewrite ?eliminatePlayer_entities; simpl;
    rewrite ?dom_insert_L; set_solver.
Qed.

Lemma rosterInv_eliminate id g : rosterInv g → rosterInv (eliminate id g).
Proof.
  intros (Hdom & Halive & Hteam). unfold rosterInv.
  rewrite eliminate_dom, eliminate_teams. split_and!; [done| |].
  - destruct (eliminate_alive id g) as [->|[Hin ->]]; [done|].
    rewrite dom_insert_L. apply elem_of_dom in Hin. set_solver.
  - intros id' e' He'.
    destruct (eliminate_entity_teams _ _ _ _ He') as (e & He & ->). eauto.
Qed.

Lemma rosterInv_putEntity id e e' g :
  playerEntities g !! id = Some e → team e' = team e →
  rosterInv g → rosterInv (putEntity id e' g).
Proof.
  intros He Ht (Hdom & Halive & Hteam). unfold rosterInv. simpl.
  split_and!; [|done|].
  - rewrite dom_insert_L, <- Hdom. apply elem_of_dom_2 in He. set_solver.
  - intros id' e0. destruct (decide (id = id')) as [->|Hne].
    + rewrite lookup_insert_eq. intros [= <-]. rewrite Ht. eauto.
    + rewrite lookup_insert_ne by done. eauto.
Qed.

Lemma rosterInv_same g g' :
  playerEntities g' = playerEntities g → playerTeams g' = playerTeams g →
  alivePlayers g' = alivePlayers g → rosterInv g → rosterInv g'.
Proof. unfold rosterInv. by intros -> -> ->. Qed.

Lemma rosterInv_applyOp g op : rosterInv g → rosterInv (applyOp g op).
Proof.
  intros Hinv. destruct op as [id|id| |id|id d|id| | |]; simpl.
  - destruct (world g) eqn:Hw; [|unfold handlePlayerJoin; by rewrite Hw].
    destruct (handlePlayerJoin_maps id g Hw) as (He & Ht & Ha).
    destruct Hinv as (Hdom & Halive & Hteam). unfold rosterInv.
    rewrite He, Ht, Ha, !dom_insert_L. split_and!; [set_solver|set_solver|].
    intros id' e'. destruct (decide (id = id')) as [->|Hne].
    + rewrite !lookup_insert_eq. by intros [= <-].
    + rewrite !lookup_insert_ne by done. eauto.
  - destruct (world g) eqn:Hw; [|unfold handlePlayerLeave; by rewrite Hw].
    destruct (handlePlayerLeave_maps id g Hw) as (He & Ht & Ha).
    destruct Hinv as (Hdom & Halive & Hteam). unfold rosterInv.
    rewrite He, Ht, Ha, !dom_delete_L. split_and!; [set_solver|set_solver|].
    intros id' e'. destruct (decide (id = id')) as [->|Hne].
    + by rewrite lookup_delete_eq.
    + rewrite !lookup_delete_ne by done. eauto.
  - unfold updateChecks. destruct (gameState g); try done.
    + destruct (checkForGameStart_maps g) as (He & Ht & Ha).
      by eapply rosterInv_same.
    + eapply rosterInv_same; [| | |done];
        auto using checkForRoundEnd_entities, checkForRoundEnd_teams,
                   checkForRoundEnd_alive.
  - by apply rosterInv_eliminate.
  - unfold takeDamage. destruct (playerEntities g !! id) as [e|] eqn:He;
      [|done].
    assert (rosterInv (putEntity id (setHealth (health e - d) e) g))
      by by eapply rosterInv_putEntity.
    case_match; [by apply rosterInv_eliminate|done].
  - unfold respawn. destruct (playerEntities g !! id) as [e|] eqn:He;
      [|done].
    by eapply rosterInv_putEntity.
  - unfold _startRound. destruct (world g); simpl; [|done].
    destruct Hinv as (Hdom & Halive & Hteam). unfold rosterInv. simpl.
    split_and!; [done| |done].
    rewrite dom_union_L, dom_fmap_L. set_solver.
  - unfold roundTimeout. destruct (roundTimer g); [|done].
    eapply rosterInv_same; [| | |exact Hinv];
      by rewrite ?endRound_entities, ?endRound_teams, ?endRound_alive.
  - unfold _resetGame.
    destruct (checkForGameStart_maps
                (setAlivePlayers ∅ (setGameState WAITING g)))
      as (He & Ht & Ha).
    destruct Hinv as (Hdom & Halive & Hteam). unfold rosterInv.
    rewrite He, Ht, Ha. simpl. split_and!; [done|set_solver|done].
Qed.

(** X4.  Whatever the host and the timers ask of the manager, in any
    order, its three maps keep describing one roster: the players with an
    entity are the players with a team, only they have an entry in the
    alive map, and the team recorded in an entity is the team of the team
    map. *)
Theorem roster_maps_consistent (ops : list ManagerOp) (g : GameManager) :
  rosterInv g → rosterInv (runOps ops g).
Proof.
  revert g. induction ops as [|op ops IH]; intros g Hinv; [done|].
  simpl. by apply IH, rosterInv_applyOp.
Qed.

Lemma roster_maps_consistent_witness :
  rosterInv (runOps [OpJoin "alice"; OpJoin "bob"; OpCountdownDone;
                     OpEliminate "bob"; OpLeave "alice"]
                    (setupGame newGameManager)).
Proof.
  apply roster_maps_consistent. unfold rosterInv. simpl.
  split_and!; [done|done|]. intros id e He. by rewrite lookup_empty in He.
Defined.

(** X5.  A player who joins and leaves again leaves no trace in the maps:
    for an id the manager did not know, entity map, team map and alive map
    are what they were before the join. *)
Theorem join_then_leave_restores_maps (id : string) (g : GameManager) :
  world g = true →
  playerEntities g !! id = None → playerTeams g !! id = None →
  alivePlayers g !! id = None →
  playerEntities (handlePlayerLeave id (handlePlayerJoin id g))
  = playerEntities g
  ∧ playerTeams (handlePlayerLeave id (handlePlayerJoin id g)) = playerTeams g
  ∧ alivePlayers (handlePlayerLeave id (handlePlayerJoin id g))
    = alivePlayers g.
Proof.
  intros Hw He Ht Ha.
  destruct (handlePlayerJoin_maps id g Hw) as (He' & Ht' & Ha').
  assert (world (handlePlayerJoin id g) = true) as Hw'.
  { unfold handlePlayerJoin, _checkForGameStart, _startCountdown.
    rewrite Hw. simpl. rewrite Hw. simpl. by repeat case_match. }
  destruct (handlePlayerLeave_maps id _ Hw') as (-> & -> & ->).
  rewrite He', Ht', Ha'. by rewrite !delete_insert_id.
Qed.

Lemma join_then_leave_restores_maps_witness :
  playerTeams (handlePlayerLeave "carol" (handlePlayerJoin "carol" arena))
  = playerTeams arena.
Proof.
  apply (join_then_leave_restores_maps "carol" arena); reflexivity.
Defined.

End Roster.

(** ** Rounds: who is out, how a round ends, the order of the states *)

Section Rounds.

Import DodgeballPlayerEntity.

Lemma eliminatePlayer_alive_other id id' g :
  id ≠ id' →
  alivePlayers (eliminatePlayer id g) !! id' = alivePlayers g !! id'.
Proof.
  intros Hne. destruct (eliminatePlayer_alive id g) as [->|[_ ->]]; [done|].
  by rewrite lookup_insert_ne.
Qed.

Lemma outIsMarked_eliminate id g : outIsMarked g → outIsMarked (eliminate id g).
Proof.
  intros Hinv. unfold eliminate.
  destruct (playerEntities g !! id) as [e|] eqn:He; [|done].
  destruct (isAlive e) eqn:Ha; simpl; [|done].
  destruct (0 <? shield e) eqn:Hs.
  - assert (outIsMarked (putEntity id (breakShield e) g)) as Hput.
    { intros id' e'. simpl. destruct (decide (id = id')) as [->|Hne].
      + rewrite lookup_insert_eq. intros [= <-]. simpl. congruence.
      + rewrite lookup_insert_ne by done. apply Hinv. }
    by destruct (inWorld e).
  - apply Z.ltb_ge in Hs. intros id' e'. rewrite eliminatePlayer_entities.
    simpl. destruct (decide (id = id')) as [->|Hne].
    + intros _ _.
      apply (eliminatePlayer_unshielded_alive _ _ (die e)); [|done].
      simpl. by rewrite lookup_insert_eq.
    + rewrite lookup_insert_ne, eliminatePlayer_alive_other by done.
      apply Hinv.
Qed.

Lemma outIsMarked_same g g' :
  playerEntities g' = playerEntities g → alivePlayers g' = alivePlayers g →
  outIsMarked g → outIsMarked g'.
Proof. unfold outIsMarked. by intros -> ->. Qed.

Lemma outIsMarked_putEntity id e e' g :
  playerEntities g !! id = Some e → (isAlive e' = false → isAlive e = false) →
  outIsMarked g → outIsMarked (putEntity id e' g).
Proof.
  intros He Ha Hinv id' e0. simpl. destruct (decide (id = id')) as [->|Hne].
  - rewrite lookup_insert_eq. intros [= <-] Hd. eapply Hinv; eauto.
  - rewrite lookup_insert_ne by done. apply Hinv.
Qed.

Lemma outIsMarked_applyOp g op :
  inRoundOp op → outIsMarked g → outIsMarked (applyOp g op).
Proof.
  intros Hop Hinv. destruct op as [id|id| |id|id d|id| | |]; simpl;
    try done.
  - destruct (world g) eqn:Hw; [|unfold handlePlayerJoin; by rewrite Hw].
    destruct (handlePlayerJoin_maps id g Hw) as (He & _ & Ha).
    intros id' e'. rewrite He, Ha. destruct (decide (id = id')) as [->|Hne].
    + rewrite lookup_insert_eq. by intros [= <-].
    + rewrite !lookup_insert_ne by done. apply Hinv.
  - destruct (world g) eqn:Hw; [|unfold handlePlayerLeave; by rewrite Hw].
    destruct (handlePlayerLeave_maps id g Hw) as (He & _ & Ha).
    intros id' e'. rewrite He, Ha. destruct (decide (id = id')) as [->|Hne].
    + by rewrite lookup_delete_eq.
    + rewrite !lookup_delete_ne by done. apply Hinv.
  - unfold updateChecks. destruct (gameState g); try done.
    + destruct (checkForGameStart_maps g) as (He & _ & Ha).
      by eapply outIsMarked_same.
    + eapply outIsMarked_same; [| |done];
        auto using checkForRoundEnd_entities, checkForRoundEnd_alive.
  - by apply outIsMarked_eliminate.
  - unfold takeDamage. destruct (playerEntities g !! id) as [e|] eqn:He;
      [|done].
    assert (outIsMarked (putEntity id (setHealth (health e - d) e) g))
      by by eapply outIsMarked_putEntity.
    case_match; [by apply outIsMarked_eliminate|done].
  - unfold respawn. destruct (playerEntities g !! id) as [e|] eqn:He;
      [|done].
    by eapply outIsMarked_putEntity.
  - unfold roundTimeout. destruct (roundTimer g); [|done].
    eapply outIsMarked_same; [| |exact Hinv];
      by rewrite ?endRound_entities, ?endRound_alive.
Qed.

(** X6.  Inside a round (joins, leaves, ticks, eliminations, damage,
    respawns, the round timer, in any order) every entity that is out is
    marked not alive in the manager's alive map, so the round-end count
    never counts a player who has been eliminated. *)
Theorem eliminated_players_are_marked_out (ops : list ManagerOp)
        (g : GameManager) :
  Forall inRoundOp ops → outIsMarked g → outIsMarked (runOps ops g).
Proof.
  revert g. induction ops as [|op ops IH]; intros g Hops Hinv; [done|].
  apply Forall_cons in Hops as [Hop Hops]. simpl.
  by apply IH, outIsMarked_applyOp.
Qed.

Lemma eliminated_players_are_marked_out_witness :
  outIsMarked (runOps [OpTakeDamage "bob" 80; OpTakeDamage "bob" 80;
                       OpEliminate "bob"; OpTick] arena).
Proof.
  apply eliminated_players_are_marked_out.
  - repeat (apply Forall_cons; split; [exact I|]). apply Forall_nil_2.
  - apply (bool_decide_unpack _). vm_compute. exact I.
Defined.

Lemma teamAlive_zero_iff t g :
  _getTeamAliveCount t g = 0%nat
  ↔ ∀ id, ¬ (playerTeams g !! id = Some t
             ∧ alivePlayers g !! id = Some true).
Proof.
  unfold _getTeamAliveCount. rewrite map_size_empty_iff, map_empty_filter.
  split.
  - intros Hall id [Ht Ha]. by apply (Hall id t Ht).
  - intros Hnone id t' Ht' [Heq Ha]. simpl in *. subst. by apply (Hnone id).
Qed.

Lemma teamAlive_after_leave t id g :
  world g = true →
  _getTeamAliveCount t
    (emit [MsgLeft id; AchEndMatch id]
       (setAlivePlayers (delete id (alivePlayers g))
          (setPlayerTeams (delete id (playerTeams g))
             (setPlayerEntities (delete id (playerEntities g)) g))))
  = 0%nat
  ↔ ¬ teammateAlive t id g.
Proof.
  intros Hw. rewrite teamAlive_zero_iff. simpl. unfold teammateAlive. split.
  - intros Hnone (id' & Hne & Ht & Ha). apply (Hnone id').
    by rewrite !lookup_delete_ne.
  - intros Hnone id' [Ht Ha]. apply Hnone. exists id'.
    destruct (decide (id = id')) as [->|Hne].
    + by rewrite lookup_delete_eq in Ht.
    + rewrite lookup_delete_ne in Ht by done.
      rewrite lookup_delete_ne in Ha by done. done.
Qed.

(** X7.  A player leaving during a round resolves it at once when that
    empties a team: if no RED player other than the leaver is alive, the
    round ends with BLUE announced; otherwise, if no other BLUE player is
    alive, it ends with RED announced; and while both teams keep an alive
    member the round goes on. *)
Theorem leave_resolves_round (id : string) (g : GameManager) :
  world g = true → gameState g = PLAYING →
  (¬ teammateAlive RED id g →
   gameState (handlePlayerLeave id g) = ENDING
   ∧ hostLog (handlePlayerLeave id g)
     = MsgTeamWins BLUE :: MsgLeft id :: AchEndMatch id :: hostLog g)
  ∧ (teammateAlive RED id g → ¬ teammateAlive BLUE id g →
     gameState (handlePlayerLeave id g) = ENDING
     ∧ hostLog (handlePlayerLeave id g)
       = MsgTeamWins RED :: MsgLeft id :: AchEndMatch id :: hostLog g)
  ∧ (teammateAlive RED id g → teammateAlive BLUE id g →
     gameState (handlePlayerLeave id g) = PLAYING).
Proof.
  intros Hw Hs.
  pose proof (teamAlive_after_leave RED id g Hw) as Hred.
  pose proof (teamAlive_after_leave BLUE id g Hw) as Hblue.
  unfold handlePlayerLeave, _checkForRoundEnd, _endRound.
  rewrite Hw. simpl. rewrite Hs, Hw. simpl.
  split_and!.
  - intros Hno. rewrite bool_decide_eq_true_2 by by apply Hred.
    by simpl.
  - intros Hr Hno. rewrite bool_decide_eq_false_2 by (rewrite Hred; tauto).
    rewrite bool_decide_eq_true_2 by by apply Hblue.
    by simpl.
  - intros Hr Hb. rewrite bool_decide_eq_false_2 by (rewrite Hred; tauto).
    rewrite bool_decide_eq_false_2 by (rewrite Hblue; tauto).
    by simpl.
Qed.

Lemma leave_resolves_round_witness :
  gameState (handlePlayerLeave "alice" arena) = ENDING
  ∧ hostLog (handlePlayerLeave "alice" arena)
    = MsgTeamWins BLUE :: MsgLeft "alice" :: AchEndMatch "alice"
      :: hostLog arena.
Proof.
  apply (leave_resolves_round "alice" arena); [reflexivity|reflexivity|].
  intros (id' & Hne & Ht & _). revert Ht.
  assert (playerTeams arena
          = <["bob" := BLUE]> (<["alice" := RED]> (∅ : gmap string Team)))
    as Hteams by (vm_compute; reflexivity).
  rewrite Hteams. destruct (decide (id' = "bob")) as [Hb|Hb].
  - rewrite Hb, lookup_insert_eq. discriminate.
  - rewrite lookup_insert_ne by done. rewrite lookup_insert_ne by done.
    rewrite lookup_empty. discriminate.
Defined.

End Rounds.

(** ** The match cycle *)

Section Lifecycle.

Import DodgeballPlayerEntity.

Lemma roundEndOrSame_refl g : roundEndOrSame g g.
Proof. by left. Qed.

Lemma checkForRoundEnd_state g : roundEndOrSame g (_checkForRoundEnd g).
Proof.
  unfold _checkForRoundEnd, _endRound.
  destruct (world g) eqn:Hw; simpl; [|by left].
  case_bool_decide as Hs; simpl; [|by left].
  repeat case_bool_decide; simpl; try (by left); by right.
Qed.

Lemma eliminatePlayer_state id g : roundEndOrSame g (eliminatePlayer id g).
Proof.
  unfold eliminatePlayer. repeat case_match; try by left.
  match goal with
  | |- roundEndOrSame _ (_checkForRoundEnd ?x) =>
      destruct (checkForRoundEnd_state x) as [[Hs Ht]|(Hs & He & Ht)]
  end; [left|right]; by simpl in *.
Qed.

Lemma eliminate_state id g : roundEndOrSame g (eliminate id g).
Proof.
  unfold eliminate. repeat case_match; try by left.
  match goal with
  | |- roundEndOrSame _ (eliminatePlayer _ ?x) =>
      destruct (eliminatePlayer_state id x) as [[Hs Ht]|(Hs & He & Ht)]
  end; [left|right]; by simpl in *.
Qed.

Lemma takeDamage_state id d g : roundEndOrSame g (takeDamage id d g).
Proof.
  unfold takeDamage. repeat case_match; try by left.
  match goal with
  | |- roundEndOrSame _ (eliminate _ ?x) =>
      destruct (eliminate_state id x) as [[Hs Ht]|(Hs & He & Ht)]
  end; [left|right]; by simpl in *.
Qed.

Lemma handlePlayerLeave_state id g :
  roundEndOrSame g (handlePlayerLeave id g).
Proof.
  unfold handlePlayerLeave. repeat case_match; try by left.
  match goal with
  | |- roundEndOrSame _ (_checkForRoundEnd ?x) =>
      destruct (checkForRoundEnd_state x) as [[Hs Ht]|(Hs & He & Ht)]
  end; [left|right]; by simpl in *.
Qed.

Lemma checkForGameStart_state g :
  (gameState (_checkForGameStart g) = gameState g
   ∨ (gameState g = WAITING ∧ gameState (_checkForGameStart g) = STARTING))
  ∧ roundTimer (_checkForGameStart g) = roundTimer g.
Proof.
  unfold _checkForGameStart, _startCountdown.
  destruct (world g); simpl; [|auto].
  case_bool_decide; simpl; [|auto]. case_bool_decide; simpl; auto.
Qed.

Lemma handlePlayerJoin_state id g :
  (gameState (handlePlayerJoin id g) = gameState g
   ∨ (gameState g = WAITING ∧ gameState (handlePlayerJoin id g) = STARTING))
  ∧ roundTimer (handlePlayerJoin id g) = roundTimer g.
Proof.
  unfold handlePlayerJoin. destruct (world g); simpl; [|auto].
  match goal with
  | |- context [_checkForGameStart ?x] =>
      destruct (checkForGameStart_state x) as [Hs Ht]
  end.
  simpl in *. auto.
Qed.

Lemma lifecycle_of_roundEnd g g' :
  roundEndOrSame g g' → timerInv g →
  timerInv g' ∧ lifecycleOrder (gameState g) (gameState g').
Proof.
  unfold timerInv, lifecycleOrder.
  intros [[Hs Ht]|(Hs & He & Ht)] Hinv.
  - rewrite Hs, Ht. auto.
  - rewrite Hs, He, Ht. split; [done|]. auto 10.
Qed.

Lemma lifecycle_of_gameStart g g' :
  (gameState g' = gameState g
   ∨ (gameState g = WAITING ∧ gameState g' = STARTING))
  ∧ roundTimer g' = roundTimer g →
  timerInv g →
  timerInv g' ∧ lifecycleOrder (gameState g) (gameState g').
Proof.
  unfold timerInv, lifecycleOrder. intros [[Hs|[Hs Hs']] Ht] Hinv.
  - rewrite Hs, Ht. auto.
  - rewrite Hs, Hs', Ht. split; [|auto 10].
    intros Htimer. specialize (Hinv Htimer). congruence.
Qed.

(** X8.  The match only moves along WAITING, STARTING, PLAYING, ENDING and
    back to WAITING: every operation of the host or of a timer either
    keeps the state or takes the next step of that cycle (the reset after
    a round may start the next countdown at once), and the round timer is
    pending only while a round is played. *)
Theorem match_cycle_order (g g' : GameManager) :
  timerInv g → managerStep g g' →
  timerInv g' ∧ lifecycleOrder (gameState g) (gameState g').
Proof.
  intros Hinv Hstep. destruct Hstep as [g op Hdue].
  destruct op as [id|id| |id|id d|id| | |]; simpl in *.
  - apply lifecycle_of_gameStart; [apply handlePlayerJoin_state|done].
  - apply lifecycle_of_roundEnd; [apply handlePlayerLeave_state|done].
  - unfold updateChecks. destruct (gameState g) eqn:Hs.
    + rewrite <- Hs. apply lifecycle_of_gameStart; [apply checkForGameStart_state|done].
    + rewrite <- Hs. apply lifecycle_of_roundEnd; [by left|done].
    + rewrite <- Hs. apply lifecycle_of_roundEnd; [apply checkForRoundEnd_state|done].
    + rewrite <- Hs. apply lifecycle_of_roundEnd; [by left|done].
  - apply lifecycle_of_roundEnd; [apply eliminate_state|done].
  - apply lifecycle_of_roundEnd; [apply takeDamage_state|done].
  - apply lifecycle_of_roundEnd; [|done]. unfold respawn.
    case_match; by left.
  - unfold _startRound, timerInv, lifecycleOrder in *.
    destruct (world g); simpl; rewrite ?Hdue.
    + split; [done|auto 10].
    + split; [|auto]. intros Ht. specialize (Hinv Ht). congruence.
  - unfold roundTimeout, _endRound, timerInv, lifecycleOrder in *.
    destruct (roundTimer g) eqn:Ht;
      [|split; [intros Hx; by rewrite Ht in Hx|by left]].
    pose proof (Hinv eq_refl) as Hs. simpl.
    destruct (world g); simpl; rewrite ?Hs; (split; [done|auto 10]).
  - unfold _resetGame.
    destruct (checkForGameStart_state
                (setAlivePlayers ∅ (setGameState WAITING g)))
      as [Hs Ht].
    unfold timerInv, lifecycleOrder in *. simpl in *. rewrite Ht, Hdue.
    split.
    + intros Htimer. specialize (Hinv Htimer). congruence.
    + destruct Hs as [->|[_ ->]]; auto 10.
Qed.

Lemma match_cycle_order_witness :
  timerInv (applyOp lobby OpCountdownDone)
  ∧ lifecycleOrder (gameState lobby)
                   (gameState (applyOp lobby OpCountdownDone)).
Proof.
  apply (match_cycle_order lobby (applyOp lobby OpCountdownDone)).
  - intros Ht. vm_compute in Ht. discriminate Ht.
  - apply managerStep_op. vm_compute. reflexivity.
Defined.

Lemma countdown_prefix seconds g k :
  world g = true → (k ≤ seconds)%nat →
  Nat.iter k countdownTick (_startCountdownFrom seconds g)
  = mkCountdown (_startCountdown g) (seconds - k) true
                (seq (seconds - k + 1) k).
Proof.
  intros Hw. induction k as [|k IH]; intros Hk.
  - unfold _startCountdownFrom, _startCountdown. rewrite Hw. simpl.
    by rewrite Nat.sub_0_r.
  - simpl. rewrite IH by lia. unfold countdownTick. simpl.
    unfold _startCountdown at 1. rewrite Hw. simpl. rewrite Hw. simpl.
    destruct (seconds - k)%nat as [|n] eqn:Hn; [lia|].
    replace (seconds - S k)%nat with n by lia.
    replace (n + 1)%nat with (S n) by lia.
    by replace (S n + 1)%nat with (S (S n)) by lia.
Qed.

(** X9.  The countdown that [_startCountdown] starts broadcasts the
    remaining seconds, from the configured number down to 1, once per run
    of its interval while the match stays in STARTING; the run after the
    last broadcast starts the round and clears the interval, and later
    runs do nothing. *)
Theorem countdown_reaches_round_start (seconds : nat) (g : GameManager) :
  world g = true →
  (∀ k, (k ≤ seconds)%nat →
     Nat.iter k countdownTick (_startCountdownFrom seconds g)
     = mkCountdown (_startCountdown g) (seconds - k) true
                   (seq (seconds - k + 1) k)
     ∧ gameState (_startCountdown g) = STARTING)
  ∧ (∀ k, (seconds < k)%nat →
     Nat.iter k countdownTick (_startCountdownFrom seconds g)
     = mkCountdown (_startRound (_startCountdown g)) 0 false (seq 1 seconds)).
Proof.
  intros Hw. split.
  - intros k Hk. split; [by apply countdown_prefix|].
    unfold _startCountdown. by rewrite Hw.
  - intros k Hk. induction k as [|k IH]; [lia|].
    simpl. destruct (decide (k = seconds)) as [->|Hne].
    + rewrite countdown_prefix by done. unfold countdownTick. simpl.
      unfold _startCountdown at 1. rewrite Hw. simpl.
      rewrite Nat.sub_diag. simpl. by rewrite Hw.
    + rewrite IH by lia. reflexivity.
Qed.

Lemma countdown_reaches_round_start_witness :
  Nat.iter 6 countdownTick
    (_startCountdownFrom GameConfig.COUNTDOWN_SECONDS
       (joinAll ["alice"] (setupGame newGameManager)))
  = mkCountdown
      (_startRound (_startCountdown
                      (joinAll ["alice"] (setupGame newGameManager))))
      0 false [1; 2; 3; 4; 5]%nat.
Proof.
  destruct (countdown_reaches_round_start GameConfig.COUNTDOWN_SECONDS
              (joinAll ["alice"] (setupGame newGameManager))) as [_ Hdone].
  - vm_compute. reflexivity.
  - apply (Hdone 6%nat). unfold GameConfig.COUNTDOWN_SECONDS. lia.
Defined.

End Lifecycle.

(** ** Game modes *)

Section Modes.

Import GameModes.

Lemma survival_round_after k alive teams m r mx t :
  GameModeManager.checkTeamEliminationVictory alive teams = Some t →
  currentRound m = Some (S r) → maxRounds m = Some (S mx) →
  currentRound (Nat.iter k (afterSurvivalCheck alive teams) m)
  = Some (Nat.max (S r) (Nat.min (S r + k) (S mx)))
  ∧ maxRounds (Nat.iter k (afterSurvivalCheck alive teams) m) = Some (S mx).
Proof.
  intros Hwin Hr Hmx. induction k as [|k [IHr IHm]].
  - simpl. split; [|done]. rewrite Hr. f_equal. lia.
  - simpl. unfold afterSurvivalCheck at 1 3, checkSurvivalVictory.
    rewrite Hwin, IHr, IHm.
    destruct (Nat.max (S r) (Nat.min (S r + k) (S mx))) as [|c] eqn:Hc;
      [lia|].
    simpl. case_bool_decide; simpl; rewrite ?IHr, ?IHm;
      (split; [f_equal; lia|done]).
Qed.

(** X10.  In Survival, starting at round 1 with [maxRounds] set to
    [mx + 1], the first [mx] checks that see a team eliminated are
    answered with no winner while they advance the round counter, and
    every later such check names the winning team; a check that sees no
    team eliminated names nobody and changes nothing. *)
Theorem survival_names_winner_in_last_round (alive : gmap string bool)
        (teams : gmap string Team) (m : ModeManager) (mx : nat) (t : Team) :
  currentRound m = Some 1%nat → maxRounds m = Some (S mx) →
  (GameModeManager.checkTeamEliminationVictory alive teams = Some t →
   ∀ k, (checkSurvivalVictory alive teams
           (Nat.iter k (afterSurvivalCheck alive teams) m)).1
        = if bool_decide (k < mx)%nat then None else Some t)
  ∧ (GameModeManager.checkTeamEliminationVictory alive teams = None →
     checkSurvivalVictory alive teams m = (None, m)).
Proof.
  intros Hr Hmx. split.
  - intros Hwin k.
    destruct (survival_round_after k alive teams m 0 mx t Hwin Hr Hmx)
      as [Hk Hm].
    unfold checkSurvivalVictory. rewrite Hwin, Hk, Hm.
    destruct (Nat.max 1 (Nat.min (1 + k) (S mx))) as [|c] eqn:Hc; [lia|].
    simpl. repeat case_bool_decide; simpl; try done; lia.
  - intros Hnone. unfold checkSurvivalVictory. by rewrite Hnone.
Qed.

Lemma survival_names_winner_in_last_round_witness :
  (checkSurvivalVictory (alivePlayers (handlePlayerLeave "alice" arena))
     (playerTeams (handlePlayerLeave "alice" arena))
     (Nat.iter 3
        (afterSurvivalCheck
           (alivePlayers (handlePlayerLeave "alice" arena))
           (playerTeams (handlePlayerLeave "alice" arena)))
        (initializeMode SURVIVAL 0
           (mkModeManager CLASSIC 0 None None None None None [])))).1 = None
  ∧ (checkSurvivalVictory (alivePlayers (handlePlayerLeave "alice" arena))
       (playerTeams (handlePlayerLeave "alice" arena))
       (Nat.iter 4
          (afterSurvivalCheck
             (alivePlayers (handlePlayerLeave "alice" arena))
             (playerTeams (handlePlayerLeave "alice" arena)))
          (initializeMode SURVIVAL 0
             (mkModeManager CLASSIC 0 None None None None None [])))).1
    = Some BLUE.
Proof.
  destruct (survival_names_winner_in_last_round
              (alivePlayers (handlePlayerLeave "alice" arena))
              (playerTeams (handlePlayerLeave "alice" arena))
              (initializeMode SURVIVAL 0
                 (mkModeManager CLASSIC 0 None None None None None []))
              4 BLUE) as [H _]; [reflexivity|reflexivity|].
  assert (GameModeManager.checkTeamEliminationVictory
            (alivePlayers (handlePlayerLeave "alice" arena))
            (playerTeams (handlePlayerLeave "alice" arena)) = Some BLUE)
    as Hw by (vm_compute; reflexivity).
  split; [exact (H Hw 3%nat)|exact (H Hw 4%nat)].
Defined.

Lemma scanScores_spec entries : ∀ acc : Z * option Team,
  (acc.2 = Some RED ∧ 0 < acc.1) ∨ (acc.2 = None ∧ acc.1 = 0) →
  let r := foldl (λ (acc : Z * option Team) (entry : string * Z),
                    if acc.1 <? entry.2 then (entry.2, Some RED) else acc)
                 acc entries in
  ((r.2 = Some RED ∧ 0 < r.1) ∨ (r.2 = None ∧ r.1 = 0))
  ∧ (0 < r.1 ↔ 0 < acc.1 ∨ ∃ entry, entry ∈ entries ∧ 0 < entry.2).
Proof.
  induction entries as [|entry entries IH]; intros acc Hacc; simpl.
  - split; [done|]. split; [auto|]. intros [?|(e & He & _)]; [done|].
    by apply elem_of_nil in He.
  - destruct (acc.1 <? entry.2) eqn:Hlt.
    + apply Z.ltb_lt in Hlt.
      destruct (IH (entry.2, Some RED)) as [Hr Hiff].
      { left. simpl. split; [done|]. destruct Hacc as [[_ ?]|[_ ?]]; lia. }
      split; [done|]. rewrite Hiff. simpl. split.
      * intros [?|(e & He & Hpos)]; right.
        -- exists entry. split; [by left|]. destruct Hacc as [[_ ?]|[_ ?]]; lia.
        -- exists e. split; [by right|done].
      * intros _. left. destruct Hacc as [[_ ?]|[_ ?]]; lia.
    + apply Z.ltb_ge in Hlt. destruct (IH acc Hacc) as [Hr Hiff].
      split; [done|]. rewrite Hiff. split.
      * intros [?|(e & He & Hpos)]; [by left|]. right. exists e.
        split; [by right|done].
      * intros [?|(e & He & Hpos)]; [by left|].
        apply elem_of_cons in He as [->|He]; [left; lia|].
        right. by exists e.
Qed.

(** X11.  Time Attack's victory check never names BLUE.  It names RED
    exactly when the time limit has elapsed and some recorded score is
    positive, whoever holds it; and since [initializeMode] starts with an
    empty score table that nothing fills, a Time Attack match as
    initialised never gets a winner from it. *)
Theorem time_attack_names_only_red (now : Z) (m : ModeManager) :
  checkTimeAttackVictory now m ≠ Some BLUE
  ∧ (checkTimeAttackVictory now m = Some RED
     ↔ orZ (timeLimit m) 120000 ≤ now - modeStartTime m
       ∧ ∃ entry, entry ∈ default [] (scores m) ∧ 0 < entry.2)
  ∧ (∀ t0 now', (checkVictoryCondition now ∅ ∅
                   (update now' (initializeMode TIME_ATTACK t0 m))).1 = None).
Proof.
  unfold checkTimeAttackVictory.
  destruct (scanScores_spec (default [] (scores m)) (0, None))
    as [Hr Hiff]; [by right|].
  fold (scanScores (default [] (scores m))) in Hr, Hiff. simpl in Hiff.
  split_and!.
  - case_match; [|done]. destruct Hr as [[-> _]|[-> _]]; done.
  - destruct (orZ (timeLimit m) 120000 <=? now - modeStartTime m) eqn:Hle.
    + apply Z.leb_le in Hle. split.
      * intros Hred. split; [done|].
        destruct Hr as [[_ Hpos]|[Hnone _]]; [|congruence].
        apply Hiff in Hpos as [?|?]; [lia|done].
      * intros [_ Hex].
        destruct Hr as [[? _]|[_ Hzero]]; [done|].
        assert (0 < (scanScores (default [] (scores m))).1) by (apply Hiff; auto).
        lia.
    + apply Z.leb_gt in Hle. split; [done|]. intros [? _]. lia.
  - intros t0 now'. unfold checkVictoryCondition, update. simpl.
    unfold checkTimeAttackVictory. simpl. by case_match.
Qed.

Lemma chaosLevelAt_bounds elapsed :
  0 ≤ elapsed → 1 ≤ chaosLevelAt elapsed ≤ 5.
Proof.
  intros He. unfold chaosLevelAt.
  assert (0 ≤ elapsed / 60000) by (apply Z.div_pos; lia). lia.
Qed.

(** X12.  The chaos level is 1 in the first minute, grows by one with
    every full minute and stays at 5 from the fifth minute on; it never
    leaves the range 1 to 5 and never goes down while time moves forward.
    [updateChaos] records the level of the moment and broadcasts it only
    when it differs from the recorded one, so a second call at the same
    moment changes nothing. *)
Theorem chaos_level_bounded_and_monotone (now : Z) (m : ModeManager) :
  (∀ elapsed, 0 ≤ elapsed →
     1 ≤ chaosLevelAt elapsed ≤ 5
     ∧ (elapsed < 240000 → chaosLevelAt elapsed = elapsed / 60000 + 1)
     ∧ (240000 ≤ elapsed → chaosLevelAt elapsed = 5))
  ∧ (∀ e1 e2, e1 ≤ e2 → chaosLevelAt e1 ≤ chaosLevelAt e2)
  ∧ chaosLevel (updateChaos now m)
    = Some (chaosLevelAt (now - modeStartTime m))
  ∧ updateChaos now (updateChaos now m) = updateChaos now m
  ∧ (chaosLevel m = Some (chaosLevelAt (now - modeStartTime m)) →
     chaosBroadcasts (updateChaos now m) = chaosBroadcasts m)
  ∧ (chaosLevel m ≠ Some (chaosLevelAt (now - modeStartTime m)) →
     chaosBroadcasts (updateChaos now m)
     = chaosLevelAt (now - modeStartTime m) :: chaosBroadcasts m).
Proof.
  split_and!.
  - intros elapsed He. split; [by apply chaosLevelAt_bounds|].
    unfold chaosLevelAt. split; intros Hlt.
    + assert (elapsed / 60000 < 4) by (apply Z.div_lt_upper_bound; lia). lia.
    + assert (4 ≤ elapsed / 60000) by (apply Z.div_le_lower_bound; lia). lia.
  - intros e1 e2 Hle. unfold chaosLevelAt.
    assert (e1 / 60000 ≤ e2 / 60000) by (apply Z.div_le_mono; lia). lia.
  - unfold updateChaos. case_bool_decide; [done|by simpl].
  - assert (modeStartTime (updateChaos now m) = modeStartTime m) as Hst
      by (unfold updateChaos; by case_bool_decide).
    assert (chaosLevel (updateChaos now m)
            = Some (chaosLevelAt (now - modeStartTime m))) as Hl
      by (unfold updateChaos; case_bool_decide; [done|by simpl]).
    unfold updateChaos at 1. rewrite Hst.
    by rewrite bool_decide_eq_true_2.
  - intros Hc. unfold updateChaos. by rewrite bool_decide_eq_true_2.
  - intros Hc. unfold updateChaos. by rewrite bool_decide_eq_false_2.
Qed.

End Modes.

(** ** The projectile: who is affected, single use, lifetime, decay *)

Section ProjectileEffects.

Import DodgeballPlayerEntity DodgeballEntity.

Lemma eliminate_other id id' g :
  id ≠ id' →
  playerEntities (eliminate id g) !! id' = playerEntities g !! id'.
Proof.
  intros Hne. unfold eliminate.
  destruct (playerEntities g !! id) as [e|] eqn:He; [|done].
  repeat case_match; rewrite ?eliminatePlayer_entities; simpl;
    by rewrite ?lookup_insert_ne.
Qed.

Lemma takeDamage_other id id' d g :
  id ≠ id' →
  playerEntities (takeDamage id d g) !! id' = playerEntities g !! id'.
Proof.
  intros Hne. unfold takeDamage.
  destruct (playerEntities g !! id) as [e|] eqn:He; [|done].
  case_match; rewrite ?eliminate_other by done; simpl;
    by rewrite lookup_insert_ne.
Qed.

Lemma applyImpulse_other id id' f g :
  id ≠ id' →
  playerEntities (applyImpulse id f g) !! id' = playerEntities g !! id'.
Proof.
  intros Hne. unfold applyImpulse. case_match; [|done]. simpl.
  by rewrite lookup_insert_ne.
Qed.

Lemma handlePlayerHit_other id id' s :
  id ≠ id' →
  playerEntities (game (_handlePlayerHit id s)) !! id'
  = playerEntities (game s) !! id'.
Proof.
  intros Hne. unfold _handlePlayerHit, applyHitKnockback, applyDamage,
    attemptElimination.
  repeat (case_match; simpl; simplify_eq);
    by rewrite ?applyImpulse_other, ?takeDamage_other, ?eliminate_other.
Qed.

(** X13.  A collision of a ball with a player touches nobody else: the
    entity of every player other than the one hit is exactly what it was,
    whatever the ball, its bounce count and its damage.  The same holds
    for [takeDamage] and [eliminate] on their own. *)
Theorem hit_affects_only_its_target (id id' : string) (s : Sim)
        (damage : Z) :
  id ≠ id' →
  playerEntities (game (_onEntityCollision (PlayerEnt id) s)) !! id'
  = playerEntities (game s) !! id'
  ∧ playerEntities (takeDamage id damage (game s)) !! id'
    = playerEntities (game s) !! id'
  ∧ playerEntities (eliminate id (game s)) !! id'
    = playerEntities (game s) !! id'.
Proof.
  intros Hne. split_and!.
  - unfold _onEntityCollision. repeat case_match; try done.
    by apply handlePlayerHit_other.
  - by apply takeDamage_other.
  - by apply eliminate_other.
Qed.

Lemma hit_affects_only_its_target_witness :
  playerEntities
    (game (_onEntityCollision (PlayerEnt "bob")
             (run [EvBlockCollision] (aliceThrows arena)))) !! "alice"
  = playerEntities (game (run [EvBlockCollision] (aliceThrows arena)))
      !! "alice".
Proof.
  assert ("bob" ≠ "alice") as Hne by discriminate.
  exact (proj1 (hit_affects_only_its_target "bob" "alice"
                  (run [EvBlockCollision] (aliceThrows arena)) 0 Hne)).
Defined.

Lemma thrower_safe_step t ev s :
  noBounceNoCatch ev →
  thrower (ball s) = Some t → bounceCount (ball s) = 0%nat →
  thrower (ball (step ev s)) = Some t
  ∧ bounceCount (ball (step ev s)) = 0%nat
  ∧ playerEntities (game (step ev s)) !! t = playerEntities (game s) !! t.
Proof.
  intros Hev Ht Hb. destruct ev as [|h|dt|dt|c]; simpl in *; try done.
  - destruct (onEntityCollision_ball h s) as [_ [Hball|Hball]];
      rewrite Hball; simpl; (split; [done|]); (split; [done|]);
      unfold _onEntityCollision;
      (destruct h as [id|]; [|done]);
      (destruct (playerEntities (game s) !! id) eqn:He; [|done]);
      rewrite Ht, Hb;
      (destruct (decide (id = t)) as [->|Hne];
       [by rewrite !bool_decide_eq_true_2
       |rewrite (bool_decide_eq_false_2 (Some t = Some id)) by congruence;
        simpl; case_match; [done|by apply handlePlayerHit_other]]).
  - unfold _onTick. by repeat (case_match; simpl).
  - unfold advance, fireCatchWindow, fireDespawnTimer.
    by repeat (case_match; simpl).
Qed.

(** X14.  A ball cannot harm the player who threw it before it has
    bounced: as long as no block collision (and no catch) occurs, whatever
    else happens to the ball, collisions with its thrower included, the
    thrower's entity stays exactly as it was. *)
Theorem thrower_safe_until_bounce (t : string) (evs : list BallEvent)
        (s : Sim) :
  Forall noBounceNoCatch evs →
  thrower (ball s) = Some t → bounceCount (ball s) = 0%nat →
  playerEntities (game (run evs s)) !! t = playerEntities (game s) !! t.
Proof.
  revert s. induction evs as [|ev evs IH]; intros s Hevs Ht Hb; [done|].
  apply Forall_cons in Hevs as [Hev Hevs]. rewrite run_cons.
  destruct (thrower_safe_step t ev s Hev Ht Hb) as (Ht' & Hb' & He).
  rewrite IH by done. exact He.
Qed.

Lemma thrower_safe_until_bounce_witness :
  playerEntities
    (game (run [EvAdvance 50; EvEntityCollision (PlayerEnt "alice");
                EvTick 16; EvEntityCollision (PlayerEnt "bob")]
               (aliceThrows arena))) !! "alice"
  = playerEntities (game (aliceThrows arena)) !! "alice".
Proof.
  apply (thrower_safe_until_bounce "alice").
  - repeat (apply Forall_cons; split; [exact I|]). apply Forall_nil_2.
  - reflexivity.
  - reflexivity.
Defined.

Lemma step_changes_game_once ev s :
  game (step ev s) = game s ∨ ballWorld (ball (step ev s)) = false.
Proof.
  destruct ev as [|h|dt|dt|c]; simpl; auto.
  - unfold _onEntityCollision, _handlePlayerHit.
    repeat (case_match; simpl); auto.
  - unfold catch. repeat (case_match; simpl); auto.
Qed.

Lemma despawned_step ev s :
  ballWorld (ball s) = false →
  game (step ev s) = game s ∧ ballWorld (ball (step ev s)) = false.
Proof.
  intros Hw. destruct ev as [|h|dt|dt|c]; simpl.
  - done.
  - unfold _onEntityCollision, _handlePlayerHit. rewrite Hw. simpl.
    by repeat case_match.
  - unfold _onTick. by rewrite Hw.
  - unfold advance, fireCatchWindow, fireDespawnTimer.
    split; [done|]. repeat (case_match; simpl); try done; congruence.
  - unfold catch. rewrite Hw. by rewrite orb_true_r.
Qed.

(** X15.  A ball is used up by the first thing it does to the game: an
    event that changes the game state (a hit that is resolved, a catch)
    leaves the ball out of the world, and a ball that is out of the world
    never changes the game again and never comes back. *)
Theorem ball_is_single_use (s : Sim) (evs : list BallEvent) :
  (∀ ev, game (step ev s) ≠ game s → ballWorld (ball (step ev s)) = false)
  ∧ (ballWorld (ball s) = false →
     game (run evs s) = game s ∧ ballWorld (ball (run evs s)) = false).
Proof.
  split.
  - intros ev Hne. destruct (step_changes_game_once ev s); [done|done].
  - revert s. induction evs as [|ev evs IH]; intros s Hw; [done|].
    rewrite run_cons. destruct (despawned_step ev s Hw) as [Hg Hw'].
    destruct (IH _ Hw') as [Hg' Hw'']. split; [congruence|done].
Qed.

Lemma ball_is_single_use_witness :
  let s := run [EvEntityCollision (PlayerEnt "bob")] (aliceThrows arena) in
  game (run [EvEntityCollision (PlayerEnt "bob"); EvCatch "bob"] s) = game s.
Proof.
  intros s.
  apply (ball_is_single_use s
           [EvEntityCollision (PlayerEnt "bob"); EvCatch "bob"]).
  vm_compute. reflexivity.
Defined.



End ProjectileEffects.

(** ** The projectile: lifetime cap and damage decay *)

Section ProjectileLifetime.

Import DodgeballEntity.

Lemma lifetimeInv_despawn t0 limit now b g :
  maxLifetime b = limit → lifetimeInv t0 limit (mkSim now (despawn b) g).
Proof. intros Hm. split; [done|]. intros Hw. discriminate Hw. Qed.

Lemma lifetimeInv_step t0 limit ev s :
  lifetimeInv t0 limit s → lifetimeInv t0 limit (step ev s).
Proof.
  intros [Hm Hinv]. destruct ev as [|h|dt|dt|c]; simpl.
  - split; [done|]. simpl. exact Hinv.
  - destruct (onEntityCollision_ball h s) as [Hc [Hb|Hb]];
      unfold lifetimeInv; rewrite Hc, Hb; [done|].
    split; [done|]. intros Hw. discriminate Hw.
  - unfold lifetimeInv, _onTick, despawn. simpl.
    destruct (ballWorld (ball s)) eqn:Hw; simpl; [|by rewrite Hw].
    destruct (Hinv eq_refl) as (Hd & Hclock & Hl).
    case_match eqn:Hdue; simpl; [done|].
    apply Z.leb_gt in Hdue. split; [done|]. intros _. split_and!; [done|done|].
    lia.
  - unfold lifetimeInv, advance, fireCatchWindow, fireDespawnTimer, despawn
      in *.
    destruct s as [now b g]. destruct b as [w th n cc cw lt ml pl dm dtm].
    simpl in *. subst ml.
    destruct w.
    + destruct (Hinv eq_refl) as (-> & Hclock & Hl).
      repeat (case_match; simpl in *; simplify_eq);
        (split; [done|]); intros Hw; try discriminate Hw;
        split_and!; try done; lia.
    + repeat (case_match; simpl in *; simplify_eq);
        (split; [done|]); intros Hw; discriminate Hw.
  - destruct (catch_ball c s) as [Hc [Hb|Hb]];
      unfold lifetimeInv; rewrite Hc, Hb; [done|].
    split; [done|]. intros Hw. discriminate Hw.
Qed.

Lemma lifetimeInv_run t0 limit evs : ∀ s,
  lifetimeInv t0 limit s → lifetimeInv t0 limit (run evs s).
Proof.
  induction evs as [|ev evs IH]; intros s Hinv; [done|].
  rewrite run_cons. by apply IH, lifetimeInv_step.
Qed.

(** X17.  No ball outlives its maximum lifetime of
    15000 * (1 + powerLevel * 0.5) ms: whatever happens to a ball after its
    spawn, thrown or not, while it is in the world less than that time has
    passed on the clock since the spawn, and the lifetime that its ticks
    have counted is below it too. *)
Theorem ball_lifetime_is_capped (who : option string) (powerLevel t0 : Z)
        (g : GameManager) (evs : list BallEvent) :
  -2 < powerLevel →
  ballWorld (ball (run evs (launch who powerLevel t0 g))) = true →
  clock (run evs (launch who powerLevel t0 g)) - t0
  < 15000 + 7500 * powerLevel
  ∧ lifetime (ball (run evs (launch who powerLevel t0 g)))
    < 15000 + 7500 * powerLevel.
Proof.
  intros Hpl Hw.
  assert (lifetimeInv t0 (15000 + 7500 * powerLevel)
            (launch who powerLevel t0 g)) as Hinit.
  { unfold launch, throw, spawn, create, lifetimeInv,
      GameConfig.DODGEBALL_LIFETIME_MS.
    destruct who; simpl; (split; [reflexivity|]); intros _;
      (split_and!; [reflexivity|lia|lia]). }
  destruct (lifetimeInv_run _ _ evs _ Hinit) as [_ Hinv].
  destruct (Hinv Hw) as (_ & Hclock & Hl). split; [lia|done].
Qed.

Lemma ball_lifetime_is_capped_witness :
  clock (run [EvAdvance 20000; EvTick 16]
             (launch (Some "alice") 1 0 arena)) - 0 < 15000 + 7500 * 1
  ∧ lifetime (ball (run [EvAdvance 20000; EvTick 16]
                        (launch (Some "alice") 1 0 arena)))
    < 15000 + 7500 * 1.
Proof.
  apply (ball_lifetime_is_capped (Some "alice") 1 0 arena
           [EvAdvance 20000; EvTick 16]).
  - lia.
  - vm_compute. reflexivity.
Defined.





End ProjectileLifetime.

(** ** The power-up: who is notified, and expiry *)

Section PowerUpMore.

Import PowerUpEntity.

Lemma collectorInv_spawn ty : collectorInv ty (spawn (create ty)).
Proof.
  unfold collectorInv. simpl. split_and!; auto.
  intros q Hq. by apply elem_of_nil in Hq.
Qed.

Lemma collectorInv_step ty ev s : collectorInv ty s → collectorInv ty (step ev s).
Proof.
  intros (Hty & Hfresh & Hlen & Hwho).
  destruct s as [[ty' c w a] sus app ntf d]. simpl in *. subst ty'.
  destruct ev as [[p|] st| |]; simpl.
  - unfold onEntityCollision, collect, collectorInv. simpl.
    destruct st, c; simpl; try (split_and!; by auto).
    destruct w; simpl; [|split_and!; by auto].
    destruct (Hfresh eq_refl) as (-> & -> & ->). simpl.
    split_and!; [done|done|done|].
    intros q Hq. apply list_elem_of_singleton in Hq. by subst.
  - unfold collectorInv. simpl. split_and!; by auto.
  - unfold resume, collectorInv. simpl.
    destruct sus as [|p rest]; simpl; [split_and!; by auto|].
    simpl in Hlen. assert (rest = [] ∧ ntf = []) as [-> ->].
    { destruct rest, ntf; simpl in *; try done; lia. }
    assert (app = [(p, ty)]) as -> by (apply Hwho; by left).
    destruct c; [|by destruct (Hfresh eq_refl)].
    destruct w; simpl; split_and!; try done; try lia;
      intros q Hq;
      first [by apply elem_of_nil in Hq
            |apply list_elem_of_singleton in Hq; by subst].
  - unfold onDespawnTimer, collectorInv. simpl.
    destruct a; simpl; [|split_and!; by auto].
    destruct w; simpl; split_and!; by auto.
Qed.

Lemma collectorInv_run ty evs : ∀ s, collectorInv ty s → collectorInv ty (run evs s).
Proof.
  induction evs as [|ev evs IH]; intros s Hinv; [done|].
  rewrite pu_run_cons. by apply IH, collectorInv_step.
Qed.

(** X19.  The "Collected ..." notification of a power-up goes to at most
    one player, and only to the player who received the effect; when the
    collecting call resumes with the power-up still in the world, that
    player is notified and the power-up leaves the world with its despawn
    timer cleared. *)
Theorem powerup_notifies_only_collector (ty : PowerUpType)
        (evs : list PowerUpEvent) (p : string) :
  (length (notified (run evs (spawn (create ty)))) ≤ 1)%nat
  ∧ (∀ q, q ∈ notified (run evs (spawn (create ty))) →
          applied (run evs (spawn (create ty))) = [(q, ty)])
  ∧ run [PuCollision (PlayerEnt p) true; PuResume] (spawn (create ty))
    = mkPowerUpSim (mkPowerUp ty true false false) [] [(p, ty)] [p] 1.
Proof.
  destruct (collectorInv_run ty evs _ (collectorInv_spawn ty))
    as (_ & _ & Hlen & Hwho).
  split_and!.
  - rewrite length_app in Hlen. lia.
  - intros q Hq. apply Hwho. apply elem_of_app. by right.
  - reflexivity.
Qed.

Lemma expired_step ev s :
  puWorld (powerUp s) = false → collected (powerUp s) = false →
  applied s = [] →
  puWorld (powerUp (step ev s)) = false
  ∧ collected (powerUp (step ev s)) = false
  ∧ applied (step ev s) = [] ∧ despawns (step ev s) = despawns s.
Proof.
  intros Hw Hc Ha. destruct s as [[ty c w a] sus app ntf d]. simpl in *.
  subst. destruct ev as [[p|] st| |]; simpl.
  - unfold onEntityCollision, collect. simpl. by destruct st.
  - done.
  - unfold resume. simpl. by destruct sus.
  - unfold onDespawnTimer. simpl. by destruct a.
Qed.

Lemma expired_run evs : ∀ s,
  puWorld (powerUp s) = false → collected (powerUp s) = false →
  applied s = [] →
  applied (run evs s) = [] ∧ despawns (run evs s) = despawns s.
Proof.
  induction evs as [|ev evs IH]; intros s Hw Hc Ha; [done|].
  rewrite pu_run_cons.
  destruct (expired_step ev s Hw Hc Ha) as (Hw' & Hc' & Ha' & Hd).
  destruct (IH _ Hw' Hc' Ha') as [Ha'' Hd']. split; [done|congruence].
Qed.

(** X20.  A power-up that nobody collected before its despawn timer fired
    is gone for good: the timer despawns it once, and whatever collisions
    arrive afterwards, no player ever receives its effect. *)
Theorem expired_powerup_gives_nothing (ty : PowerUpType)
        (pre evs : list PowerUpEvent) :
  Forall ignoredCollision pre →
  applied (run (pre ++ PuTimer :: evs) (spawn (create ty))) = []
  ∧ despawns (run (pre ++ PuTimer :: evs) (spawn (create ty))) = 1%nat.
Proof.
  intros Hpre. rewrite pu_run_app, (ignored_run pre) by done.
  rewrite pu_run_cons. by apply expired_run.
Qed.

Lemma expired_powerup_gives_nothing_witness :
  applied (run ([PuCollision OtherEnt true]
                ++ PuTimer :: [PuCollision (PlayerEnt "alice") true;
                               PuResume])
               (spawn (create SHIELD))) = []
  ∧ despawns (run ([PuCollision OtherEnt true]
                   ++ PuTimer :: [PuCollision (PlayerEnt "alice") true;
                                  PuResume])
                  (spawn (create SHIELD))) = 1%nat.
Proof.
  apply (expired_powerup_gives_nothing SHIELD [PuCollision OtherEnt true]).
  apply Forall_cons. split; [exact I|apply Forall_nil_2].
Defined.

Lemma spawnRandomPowerUp_length w ty ps :
  (length ps ≤ POWER_UP_MAX_ACTIVE)%nat →
  (length (spawnRandomPowerUp w ty ps) ≤ POWER_UP_MAX_ACTIVE)%nat.
Proof.
  intros Hlen. unfold spawnRandomPowerUp.
  destruct (negb w); simpl; [done|].
  case_bool_decide; [done|]. rewrite length_app. simpl. lia.
Qed.

(** X21.  The manager never holds more than POWER_UP_MAX_ACTIVE power-ups:
    [spawnRandomPowerUp] refuses to add one when that many are held (or
    when no world is attached), the sweep of [_updatePowerUps] only drops
    power-ups, and it drops exactly those that have left the world.  A
    power-up that was added is in the world and not yet collected. *)
Theorem active_powerups_capped (w : bool) (ty : PowerUpType)
        (powerUps : list PowerUp) :
  (length powerUps ≤ POWER_UP_MAX_ACTIVE)%nat →
  (length (spawnRandomPowerUp w ty powerUps) ≤ POWER_UP_MAX_ACTIVE)%nat
  ∧ (length (_updatePowerUps powerUps) ≤ length powerUps)%nat
  ∧ (∀ p, p ∈ _updatePowerUps powerUps ↔ p ∈ powerUps ∧ puWorld p = true)
  ∧ (∀ p, p ∈ spawnRandomPowerUp w ty powerUps → p ∉ powerUps →
          p = mkPowerUp ty false true true).
Proof.
  intros Hlen. split_and!.
  - by apply spawnRandomPowerUp_length.
  - unfold _updatePowerUps. apply length_filter.
  - intros p. unfold _updatePowerUps. rewrite list_elem_of_filter. tauto.
  - intros p Hin Hnew. unfold spawnRandomPowerUp in Hin.
    destruct (negb w || bool_decide (POWER_UP_MAX_ACTIVE ≤ length powerUps)%nat);
      [done|].
    apply elem_of_app in Hin as [?|Hin]; [done|].
    by apply list_elem_of_singleton in Hin.
Qed.

Lemma active_powerups_capped_witness :
  (length (spawnRandomPowerUp true SHIELD
             (spawnRandomPowerUp true FREEZE [])) ≤ POWER_UP_MAX_ACTIVE)%nat.
Proof.
  apply (active_powerups_capped true SHIELD
           (spawnRandomPowerUp true FREEZE [])).
  vm_compute. lia.
Defined.

End PowerUpMore.

(** ** Magnet targets and trail particles of a ball *)

Section BallEffectsFacts.

Import BallEffects.

Lemma applyMagnetOp_spec targets op :
  NoDup targets →
  NoDup (applyMagnetOp targets op)
  ∧ list_to_set (applyMagnetOp targets op)
    = magnetSetOp (list_to_set targets) op.
Proof.
  intros Hnd. destruct op as [t|t|]; simpl.
  - unfold addMagnetTarget. case_bool_decide as Hin.
    + split; [done|]. apply set_eq. intros x.
      rewrite elem_of_union, elem_of_list_to_set, elem_of_singleton.
      split; [auto|]. intros [?| ->]; done.
    + split.
      * apply NoDup_app. split_and!; [done| |apply NoDup_singleton].
        intros x Hx Hx'. apply list_elem_of_singleton in Hx'. by subst.
      * apply set_eq. intros x.
        rewrite elem_of_union, !elem_of_list_to_set, elem_of_app,
          elem_of_singleton, list_elem_of_singleton. tauto.
  - unfold removeMagnetTarget. split; [by apply NoDup_filter|].
    apply set_eq. intros x.
    rewrite elem_of_difference, !elem_of_list_to_set, list_elem_of_filter,
      elem_of_singleton. tauto.
  - split; [apply NoDup_nil_2|done].
Qed.

(** X22.  The magnet targets of a ball behave as a set of players: under
    any sequence of [addMagnetTarget], [removeMagnetTarget] and
    [clearMagnetTargets] calls, starting with no targets, the array never
    holds a player twice and holds exactly the players that the same
    sequence of set insertions, removals and clearings leaves. *)
Theorem magnet_targets_form_a_set (ops : list MagnetOp) :
  NoDup (foldl applyMagnetOp [] ops)
  ∧ list_to_set (foldl applyMagnetOp [] ops) = foldl magnetSetOp ∅ ops.
Proof.
  assert (∀ targets, NoDup targets →
            NoDup (foldl applyMagnetOp targets ops)
            ∧ list_to_set (foldl applyMagnetOp targets ops)
              = foldl magnetSetOp (list_to_set targets) ops) as Hgen.
  { induction ops as [|op ops IH]; intros targets Hnd; [done|].
    simpl. destruct (applyMagnetOp_spec targets op Hnd) as [Hnd' Heq].
    rewrite <- Heq. by apply IH. }
  apply (Hgen []). apply NoDup_nil_2.
Qed.

Lemma trail_age k : (λ l, l + 16) <$> (trailOf k ++ [0]) = trailOf (S k).
Proof.
  induction k as [|k IH]; [done|].
  change (trailOf (S k)) with (16 * Z.of_nat (S k) :: trailOf k).
  rewrite <- app_comm_cons, fmap_cons, IH.
  change (trailOf (S (S k))) with (16 * Z.of_nat (S (S k)) :: trailOf (S k)).
  f_equal. lia.
Qed.

Lemma trail_filter k :
  filter (λ l, l < 1000) (trailOf k) = trailOf (Nat.min k 62).
Proof.
  induction k as [|k IH]; [done|].
  change (trailOf (S k)) with (16 * Z.of_nat (S k) :: trailOf k).
  destruct (decide (S k ≤ 62)%nat) as [Hle|Hgt].
  - rewrite filter_cons_True by lia. rewrite IH.
    replace (Nat.min k 62) with k by lia.
    by replace (Nat.min (S k) 62) with (S k) by lia.
  - rewrite filter_cons_False by lia. rewrite IH.
    replace (Nat.min k 62) with 62%nat by lia.
    by replace (Nat.min (S k) 62) with 62%nat by lia.
Qed.

Lemma trail_length k : length (trailOf k) = k.
Proof. induction k as [|k IH]; [done|]. simpl. by rewrite IH. Qed.

Lemma trail_after n :
  Nat.iter n (createTrailParticle true) [] = trailOf (Nat.min n 62).
Proof.
  induction n as [|n IH]; [done|].
  change (Nat.iter (S n) (createTrailParticle true) [])
    with (createTrailParticle true (Nat.iter n (createTrailParticle true) [])).
  rewrite IH. unfold createTrailParticle. cbn [negb].
  rewrite trail_age, trail_filter. f_equal. lia.
Qed.

(** X23.  The trail of a ball is bounded: after any number [n] of
    [createTrailParticle] calls on a ball in the world it holds
    min(n, 62) particles, never more than 62, each with a lifetime below
    its maximum of 1000; on a ball outside the world the call changes
    nothing. *)
Theorem trail_particles_bounded (n : nat) (particles : list Z) :
  length (Nat.iter n (createTrailParticle true) []) = Nat.min n 62
  ∧ (length (Nat.iter n (createTrailParticle true) []) ≤ 62)%nat
  ∧ (∀ l, l ∈ createTrailParticle true particles → l < 1000)
  ∧ createTrailParticle false particles = particles.
Proof.
  rewrite trail_after, trail_length. split_and!; [done|lia| |done].
  intros l Hl. unfold createTrailParticle in Hl. simpl in Hl.
  by apply list_elem_of_filter in Hl as [? _].
Qed.

End BallEffectsFacts.

(** ** Spawn positions *)

Section SpawnPositions.

Lemma dodgeballSpawnX_eq count i :
  (dodgeballSpawnX count i
   == inject_Z (Z.of_nat i) * 3 - (inject_Z (Z.of_nat count) - 1) * (3 # 2))%Q.
Proof. unfold dodgeballSpawnX. field. Qed.

Lemma inject_Z_mirror count i :
  (i < count)%nat →
  (inject_Z (Z.of_nat (count - 1 - i))
   == inject_Z (Z.of_nat count) - 1 - inject_Z (Z.of_nat i))%Q.
Proof.
  intros Hi. replace (Z.of_nat (count - 1 - i))
    with (Z.of_nat count + (-1 + - Z.of_nat i)) by lia.
  rewrite !inject_Z_plus, inject_Z_opp. change (inject_Z (-1)) with (-1)%Q.
  ring.
Qed.

(** X24.  The balls of a round are spawned in a row that is centred on
    x = 0: there are as many positions as balls, all at height 2 on the
    line z = 0, neighbours are 3 apart, the i-th position from the left is
    the mirror image of the i-th from the right, and with at most 24 balls
    (the code spawns 8) every ball is inside the field, whose x range is
    -35 to 35. *)
Theorem dodgeball_row_is_centred (count i : nat) :
  (i < count)%nat →
  length (dodgeballSpawnPositions count) = count
  ∧ dodgeballSpawnPositions count !! i
    = Some (dodgeballSpawnX count i, 2%Q, 0%Q)
  ∧ (dodgeballSpawnX count (S i) - dodgeballSpawnX count i == 3)%Q
  ∧ (dodgeballSpawnX count (count - 1 - i) == - dodgeballSpawnX count i)%Q
  ∧ ((count ≤ 24)%nat →
     (-35 <= dodgeballSpawnX count i)%Q ∧ (dodgeballSpawnX count i <= 35)%Q).
Proof.
  intros Hi. split_and!.
  - unfold dodgeballSpawnPositions. by rewrite length_map, length_seq.
  - unfold dodgeballSpawnPositions. rewrite list_lookup_fmap.
    by rewrite lookup_seq_lt.
  - rewrite !dodgeballSpawnX_eq.
    replace (Z.of_nat (S i)) with (Z.of_nat i + 1) by lia.
    rewrite inject_Z_plus. change (inject_Z 1) with 1%Q. ring.
  - rewrite !dodgeballSpawnX_eq, inject_Z_mirror by done. ring.
  - intros Hc. rewrite dodgeballSpawnX_eq.
    assert (0 <= inject_Z (Z.of_nat i))%Q as H0.
    { change 0%Q with (inject_Z 0). rewrite <- Zle_Qle. lia. }
    assert (inject_Z (Z.of_nat i) + 1 <= inject_Z (Z.of_nat count))%Q as H1.
    { change 1%Q with (inject_Z 1). rewrite <- inject_Z_plus.
      rewrite <- Zle_Qle. lia. }
    assert (inject_Z (Z.of_nat count) <= 24)%Q as H2.
    { change 24%Q with (inject_Z 24). rewrite <- Zle_Qle. lia. }
    split; lra.
Qed.

Lemma dodgeball_row_is_centred_witness :
  length (dodgeballSpawnPositions GameConfig.DODGEBALL_COUNT) = 8%nat
  ∧ dodgeballSpawnPositions GameConfig.DODGEBALL_COUNT !! 0%nat
    = Some (dodgeballSpawnX GameConfig.DODGEBALL_COUNT 0, 2%Q, 0%Q).
Proof.
  destruct (dodgeball_row_is_centred GameConfig.DODGEBALL_COUNT 0)
    as (H1 & H2 & _).
  - unfold GameConfig.DODGEBALL_COUNT. lia.
  - split; [exact H1|exact H2].
Defined.

Lemma roundToTenth_bounds (lo hi : Z) (v : Q) :
  (inject_Z lo <= v * 10)%Q → (v * 10 <= inject_Z hi)%Q →
  (inject_Z lo / 10 <= roundToTenth v)%Q
  ∧ (roundToTenth v <= inject_Z hi / 10)%Q.
Proof.
  intros Hlo Hhi. unfold roundToTenth.
  assert (lo ≤ Qfloor (v * 10 + (1 # 2))) as Hl.
  { rewrite <- (Qfloor_Z lo). apply Qfloor_resp_le. lra. }
  assert (Qfloor (v * 10 + (1 # 2)) ≤ hi) as Hh.
  { pose proof (Qfloor_le (v * 10 + (1 # 2))) as Hf.
    destruct (Z_le_gt_dec (Qfloor (v * 10 + (1 # 2))) hi) as [?|Hgt]; [done|].
    assert (inject_Z hi + 1 <= inject_Z (Qfloor (v * 10 + (1 # 2))))%Q.
    { change 1%Q with (inject_Z 1). rewrite <- inject_Z_plus.
      rewrite <- Zle_Qle. lia. }
    lra. }
  rewrite Zle_Qle in Hl, Hh. split.
  - apply Qmult_le_compat_r; [done|]. unfold Qle. simpl. lia.
  - apply Qmult_le_compat_r; [done|]. unfold Qle. simpl. lia.
Qed.

(** X25.  Every player is spawned inside the own half of the field, at
    least the safe radius of 5 away from the centre line x = 0 and from
    the edges: for any two draws of Math.random, a RED player gets x
    between -30 and -5, a BLUE player x between 5 and 30, and both get
    height 2 and z between -35 and 35. *)
Theorem spawn_position_in_own_half (t : Team) (rx rz : Q) :
  (0 <= rx)%Q → (rx < 1)%Q → (0 <= rz)%Q → (rz < 1)%Q →
  (_getSafeSpawnPosition t rx rz).1.2 = 2%Q
  ∧ (-35 <= (_getSafeSpawnPosition t rx rz).2)%Q
  ∧ ((_getSafeSpawnPosition t rx rz).2 <= 35)%Q
  ∧ match t with
    | RED => (-30 <= (_getSafeSpawnPosition t rx rz).1.1)%Q
             ∧ ((_getSafeSpawnPosition t rx rz).1.1 <= -5)%Q
    | BLUE => (5 <= (_getSafeSpawnPosition t rx rz).1.1)%Q
              ∧ ((_getSafeSpawnPosition t rx rz).1.1 <= 30)%Q
    end.
Proof.
  intros Hx0 Hx1 Hz0 Hz1. unfold _getSafeSpawnPosition. simpl.
  destruct (roundToTenth_bounds (-350) 350
              (rz * (40 - 5 - (-40 + 5)) + (-40 + 5))%Q) as [Hzl Hzh].
  { change (inject_Z (-350)) with (-350)%Q. lra. }
  { change (inject_Z 350) with 350%Q. lra. }
  split_and!; [done| | |].
  - eapply Qle_trans; [|exact Hzl]. by vm_compute.
  - eapply Qle_trans; [exact Hzh|]. by vm_compute.
  - destruct t.
    + destruct (roundToTenth_bounds (-300) (-50)
                  (rx * (0 - 5 - (-35 + 5)) + (-35 + 5))%Q) as [Hl Hh].
      { change (inject_Z (-300)) with (-300)%Q. lra. }
      { change (inject_Z (-50)) with (-50)%Q. lra. }
      split.
      * eapply Qle_trans; [|exact Hl]. by vm_compute.
      * eapply Qle_trans; [exact Hh|]. by vm_compute.
    + destruct (roundToTenth_bounds 50 300
                  (rx * (35 - 5 - (0 + 5)) + (0 + 5))%Q) as [Hl Hh].
      { change (inject_Z 50) with 50%Q. lra. }
      { change (inject_Z 300) with 300%Q. lra. }
      split.
      * eapply Qle_trans; [|exact Hl]. by vm_compute.
      * eapply Qle_trans; [exact Hh|]. by vm_compute.
Qed.

Lemma spawn_position_in_own_half_witness :
  (-30 <= (_getSafeSpawnPosition RED (1 # 3) (9 # 10)).1.1)%Q
  ∧ ((_getSafeSpawnPosition RED (1 # 3) (9 # 10)).1.1 <= -5)%Q.
Proof.
  destruct (spawn_position_in_own_half RED (1 # 3) (9 # 10))
    as (_ & _ & _ & H); [by vm_compute|by vm_compute|by vm_compute
                         |by vm_compute|exact H].
Defined.

End SpawnPositions.
